(** * Memory matching game: the game engine of [App.js]

    A shallow embedding of the React component's game logic
    ([shuffleArray], [startNewGame], [flipCard] with its delayed match
    check, the [allMatched] flag and the score effect), and the
    properties of the deck, the session state machine and the score.

    Both source files of the repository carry the same logic (they differ
    in comments and in the names [deck]/[doubled] only); the definitions
    below follow [memory-game/src/App.js]. *)

From Stdlib Require Import ZArith QArith Qminmax Lia Lqa Sorted.
From stdpp Require Import base list gmap strings pretty.

Local Open Scope nat_scope.

(* ===================================================================== *)
(** ** Randomness *)
(* ===================================================================== *)

(** [Math.random()] returns a finite double in [0, 1).  Every finite double
    is an integer multiple of 2^-1074, and the shuffle only looks at the
    sign of the difference of two draws, which is the sign of the
    difference of these integers.  A draw is recorded as that integer; the
    generator is the infinite sequence of the draws still to come. *)
Definition Rng := nat -> Z.

Definition random (r : Rng) : Z * Rng := (r 0, fun n => r (S n)).

(* ===================================================================== *)
(** ** shuffleArray *)
(* ===================================================================== *)

(** The object [{ value, sort }] built by the first [map]. *)
Record Keyed := { value : string; sort : Z }.

(** [arr.map((value) => ({ value, sort: Math.random() }))]: the callback
    runs once per element, in index order, drawing one key each time. *)
Fixpoint attach_keys (arr : list string) (r : Rng) : list Keyed * Rng :=
  match arr with
  | [] => ([], r)
  | v :: rest =>
      let (k, r1) := random r in
      let (tagged, r2) := attach_keys rest r1 in
      ({| value := v; sort := k |} :: tagged, r2)
  end.

(** The comparator [(a, b) => a.sort - b.sort]. *)
Definition by_sort_key (a b : Keyed) : Z := (sort a - sort b)%Z.

(** [Array.prototype.sort] with a consistent comparator: a stable sort
    (ECMAScript 2019 and later), written as an insertion sort.  [place]
    moves [x] past the elements the comparator puts strictly before it
    ([cmp x y > 0]) and no further, so that elements the comparator does
    not separate keep their input order. *)
Fixpoint place (cmp : Keyed -> Keyed -> Z) (x : Keyed) (l : list Keyed) : list Keyed :=
  match l with
  | [] => [x]
  | y :: l' => if (0 <? cmp x y)%Z then y :: place cmp x l' else x :: y :: l'
  end.

Definition array_sort (cmp : Keyed -> Keyed -> Z) (l : list Keyed) : list Keyed :=
  foldr (place cmp) [] l.

(** [shuffleArray] on values: the new array and the generator after the
    draws. *)
Definition shuffleArray (arr : list string) (r : Rng) : list string * Rng :=
  let (tagged, r1) := attach_keys arr r in
  (map value (array_sort by_sort_key tagged), r1).

(** *** The same function on a heap of arrays

    [map] allocates a new array, [sort] works in place on the array it is
    called on and returns it.  The heap has the arrays of strings and the
    arrays of [{ value, sort }] objects; a reference is a position. *)
Record Heap := {
  strings_of : list (list string);
  keyed_of : list (list Keyed)
}.

Definition alloc_keyed (h : Heap) (l : list Keyed) : Heap * nat :=
  ({| strings_of := strings_of h; keyed_of := keyed_of h ++ [l] |},
   length (keyed_of h)).

Definition alloc_strings (h : Heap) (l : list string) : Heap * nat :=
  ({| strings_of := strings_of h ++ [l]; keyed_of := keyed_of h |},
   length (strings_of h)).

(** [sort] in place: the array at [a] is overwritten, [a] is returned. *)
Definition sort_in_place (cmp : Keyed -> Keyed -> Z) (h : Heap) (a : nat) : option (Heap * nat) :=
  l ← keyed_of h !! a;
  Some ({| strings_of := strings_of h;
           keyed_of := <[a := array_sort cmp l]> (keyed_of h) |}, a).

Definition shuffleArray_heap (h : Heap) (arr : nat) (r : Rng) : option (Heap * nat * Rng) :=
  l ← strings_of h !! arr;
  let (tagged, r1) := attach_keys l r in
  let (h1, a1) := alloc_keyed h tagged in
  '(h2, a2) ← sort_in_place by_sort_key h1 a1;
  sorted ← keyed_of h2 !! a2;
  let (h3, a3) := alloc_strings h2 (map value sorted) in
  Some (h3, a3, r1).

(* ===================================================================== *)
(** ** Component state *)
(* ===================================================================== *)

Inductive Difficulty := easy | medium | hard.

(** [difficultyMultiplier]: how many matching cards form a group. *)
Definition difficultyMultiplier (d : Difficulty) : nat :=
  match d with
  | easy => 2
  | medium => 3
  | hard => 4
  end.

(** What the callback handed to [setTimeout] in [flipCard] closes over:
    the [flipped] and [cards] of the render in which the card was clicked,
    and the clicked [index]. *)
Record Timeout := {
  t_flipped : list Z;
  t_index : Z;
  t_cards : list string
}.

(** The [useState] cells of the component, and the timeout callbacks that
    were scheduled and have not run yet (oldest first; they all have the
    same delay, so they run in the order they were scheduled). *)
Record State := {
  gridSize : nat;
  difficulty : Difficulty;
  cards : list string;
  flipped : list Z;
  matched : list Z;
  disabled : bool;
  moves : nat;
  startTime : option Z;
  elapsedTime : Z;
  score : Q;
  emojiList : list string;
  timeouts : list Timeout
}.

(** The state of the first render. *)
Definition initial : State :=
  {| gridSize := 4; difficulty := easy; cards := []; flipped := [];
     matched := []; disabled := false; moves := 0; startTime := None;
     elapsedTime := 0; score := 0; emojiList := []; timeouts := [] |}.

Definition setGridSize (n : nat) (s : State) : State :=
  {| gridSize := n; difficulty := difficulty s; cards := cards s;
     flipped := flipped s; matched := matched s; disabled := disabled s;
     moves := moves s; startTime := startTime s;
     elapsedTime := elapsedTime s; score := score s;
     emojiList := emojiList s; timeouts := timeouts s |}.

Definition setDifficulty (d : Difficulty) (s : State) : State :=
  {| gridSize := gridSize s; difficulty := d; cards := cards s;
     flipped := flipped s; matched := matched s; disabled := disabled s;
     moves := moves s; startTime := startTime s;
     elapsedTime := elapsedTime s; score := score s;
     emojiList := emojiList s; timeouts := timeouts s |}.

Definition setEmojiList (l : list string) (s : State) : State :=
  {| gridSize := gridSize s; difficulty := difficulty s; cards := cards s;
     flipped := flipped s; matched := matched s; disabled := disabled s;
     moves := moves s; startTime := startTime s;
     elapsedTime := elapsedTime s; score := score s;
     emojiList := l; timeouts := timeouts s |}.

Definition setFlipped (l : list Z) (s : State) : State :=
  {| gridSize := gridSize s; difficulty := difficulty s; cards := cards s;
     flipped := l; matched := matched s; disabled := disabled s;
     moves := moves s; startTime := startTime s;
     elapsedTime := elapsedTime s; score := score s;
     emojiList := emojiList s; timeouts := timeouts s |}.

Definition setMatched (l : list Z) (s : State) : State :=
  {| gridSize := gridSize s; difficulty := difficulty s; cards := cards s;
     flipped := flipped s; matched := l; disabled := disabled s;
     moves := moves s; startTime := startTime s;
     elapsedTime := elapsedTime s; score := score s;
     emojiList := emojiList s; timeouts := timeouts s |}.

Definition setDisabled (b : bool) (s : State) : State :=
  {| gridSize := gridSize s; difficulty := difficulty s; cards := cards s;
     flipped := flipped s; matched := matched s; disabled := b;
     moves := moves s; startTime := startTime s;
     elapsedTime := elapsedTime s; score := score s;
     emojiList := emojiList s; timeouts := timeouts s |}.

Definition setMoves (n : nat) (s : State) : State :=
  {| gridSize := gridSize s; difficulty := difficulty s; cards := cards s;
     flipped := flipped s; matched := matched s; disabled := disabled s;
     moves := n; startTime := startTime s;
     elapsedTime := elapsedTime s; score := score s;
     emojiList := emojiList s; timeouts := timeouts s |}.

Definition setScore (q : Q) (s : State) : State :=
  {| gridSize := gridSize s; difficulty := difficulty s; cards := cards s;
     flipped := flipped s; matched := matched s; disabled := disabled s;
     moves := moves s; startTime := startTime s;
     elapsedTime := elapsedTime s; score := q;
     emojiList := emojiList s; timeouts := timeouts s |}.

(** Bookkeeping of the pending [setTimeout] callbacks. *)
Definition setTimeouts (l : list Timeout) (s : State) : State :=
  {| gridSize := gridSize s; difficulty := difficulty s; cards := cards s;
     flipped := flipped s; matched := matched s; disabled := disabled s;
     moves := moves s; startTime := startTime s;
     elapsedTime := elapsedTime s; score := score s;
     emojiList := emojiList s; timeouts := l |}.

(* ===================================================================== *)
(** ** startNewGame *)
(* ===================================================================== *)

(** [for (let i = 0; i < mult; i++) deck.push(emoji)], counting the
    iterations that remain. *)
Fixpoint push_times (n : nat) (emoji : string) (deck : list string) : list string :=
  match n with
  | 0 => deck
  | S n' => push_times n' emoji (deck ++ [emoji])
  end.

(** [selectedEmojis.forEach(...)] on the initially empty [deck]. *)
Definition duplicate_each (mult : nat) (selectedEmojis : list string) : list string :=
  foldl (fun deck emoji => push_times mult emoji deck) [] selectedEmojis.

(** [startNewGame(size, diff)], at time [now = Date.now()].  The pending
    timeout is not cleared here (only the unmount cleanup calls
    [clearTimeout]), so [timeouts] is kept. *)
Definition startNewGame (now : Z) (size : nat) (diff : Difficulty)
    (s : State) (r : Rng) : State * Rng :=
  if decide (length (emojiList s) = 0) then (s, r)
  else
    let mult := difficultyMultiplier diff in
    let totalCards := size * size in
    let adjustedTotal := totalCards - totalCards mod mult in
    let uniqueNeeded := adjustedTotal / mult in
    let (shuffled, r1) := shuffleArray (emojiList s) r in
    let selectedEmojis := take uniqueNeeded shuffled in
    let deck := duplicate_each mult selectedEmojis in
    let (shuffledCards, r2) := shuffleArray deck r1 in
    ({| gridSize := gridSize s; difficulty := difficulty s;
        cards := shuffledCards; flipped := []; matched := [];
        disabled := false; moves := 0; startTime := Some now;
        elapsedTime := 0; score := 0; emojiList := emojiList s;
        timeouts := timeouts s |}, r2).

(** The effect on [gridSize, difficulty, emojiList]. *)
Definition restart_effect (now : Z) (s : State) (r : Rng) : State * Rng :=
  if decide (0 < length (emojiList s))
  then startNewGame now (gridSize s) (difficulty s) s r
  else (s, r).

(** The two selectors and the arrival of the emoji list: a state update
    followed by the effect.  (A selector calls its handler when the
    selected value changes; the effect does not run for a value that is
    the current one.) *)
Definition selectGridSize (now : Z) (n : nat) (s : State) (r : Rng) : State * Rng :=
  restart_effect now (setGridSize n s) r.

Definition selectDifficulty (now : Z) (d : Difficulty) (s : State) (r : Rng) : State * Rng :=
  restart_effect now (setDifficulty d s) r.

Definition emojisLoaded (now : Z) (l : list string) (s : State) (r : Rng) : State * Rng :=
  restart_effect now (setEmojiList l s) r.

Definition resetGame (now : Z) (s : State) (r : Rng) : State * Rng :=
  startNewGame now (gridSize s) (difficulty s) s r.

(* ===================================================================== *)
(** ** flipCard and the delayed match check *)
(* ===================================================================== *)

(** [arr.includes(index)] on an array of integers. *)
Definition includes (arr : list Z) (index : Z) : bool := bool_decide (index ∈ arr).

(** [cards[i]]: [None] is [undefined], the value of a read outside the
    array. *)
Definition card_at (cs : list string) (i : Z) : option string :=
  if (i <? 0)%Z then None else cs !! Z.to_nat i.

(** The body of [flipCard] up to and including the [setTimeout] call. *)
Definition flipCard (index : Z) (s : State) : State :=
  if disabled s || includes (flipped s) index || includes (matched s) index then s
  else if decide (length (flipped s) = difficultyMultiplier (difficulty s) - 1) then
    setTimeouts
      (timeouts s ++ [{| t_flipped := flipped s; t_index := index; t_cards := cards s |}])
      (setMoves (moves s + 1)
         (setDisabled true
            (setFlipped (flipped s ++ [index]) s)))
  else setFlipped (flipped s ++ [index]) s.

(** [flippedEmojis.every((e) => e === flippedEmojis[0])]. *)
Definition all_match (flippedEmojis : list (option string)) : bool :=
  forallb (fun e => bool_decide (e = default None (head flippedEmojis))) flippedEmojis.

(** The callback given to [setTimeout]: [flipped], [index] and [cards] are
    the captured ones, [setMatched] works on the current [matched]. *)
Definition timeout_callback (c : Timeout) (s : State) : State :=
  let flippedEmojis := map (card_at (t_cards c)) (t_flipped c ++ [t_index c]) in
  let allMatch := all_match flippedEmojis in
  let s1 :=
    if allMatch then setMatched (matched s ++ t_flipped c ++ [t_index c]) s else s in
  setDisabled false (setFlipped [] s1).

(** The oldest pending timeout fires. *)
Definition run_timeout (s : State) : State :=
  match timeouts s with
  | [] => s
  | c :: rest => timeout_callback c (setTimeouts rest s)
  end.

(* ===================================================================== *)
(** ** Completion and score *)
(* ===================================================================== *)

Definition allMatched (s : State) : bool :=
  bool_decide (length (matched s) = length (cards s))
  && bool_decide (0 < length (cards s)).

Definition of_nat (n : nat) : Q := inject_Z (Z.of_nat n).

(** [Math.max(0, 100 - (moves - ideal) * 5)] with
    [ideal = cards.length / mult].  The division is the division of
    numbers, not of integers; on the decks [startNewGame] builds
    [cards.length] is a multiple of [mult] and the quotient is exact. *)
Definition efficiency (moveCount deckLength mult : nat) : Q :=
  let ideal := (of_nat deckLength / of_nat mult)%Q in
  Qmax 0 (100 - (of_nat moveCount - ideal) * 5)%Q.

(** The effect on [allMatched, moves, cards, difficulty]. *)
Definition score_effect (s : State) : State :=
  if allMatched s
  then setScore (efficiency (moves s) (length (cards s))
                   (difficultyMultiplier (difficulty s))) s
  else s.

(* ===================================================================== *)
(** ** Vocabulary of the properties *)
(* ===================================================================== *)

(** How many times a token occurs in a deck. *)
Definition occurrences (t : string) (deck : list string) : nat :=
  length (filter (fun x => x = t) deck).

(** An index that denotes a card of the deck. *)
Definition in_deck (cs : list string) (i : Z) : Prop :=
  (0 <= i < Z.of_nat (length cs))%Z.

(** The guard of [flipCard] lets the click through. *)
Definition accepted (index : Z) (s : State) : bool :=
  negb (disabled s || includes (flipped s) index || includes (matched s) index).

(** The indices a timeout callback evaluates: [[...flipped, index]]. *)
Definition group_of (c : Timeout) : list Z := t_flipped c ++ [t_index c].

(** All the cards of a group show the same token (an index outside the
    deck shows [undefined]). *)
Definition same_tokens (cs : list string) (g : list Z) : Prop :=
  forall i j, i ∈ g -> j ∈ g -> card_at cs i = card_at cs j.

(** A game that has just been started, with a usable configuration and no
    timeout of an earlier game still pending. *)
Definition new_game (s0 : State) : Prop :=
  exists now s r,
    2 <= gridSize s /\ emojiList s <> [] /\ timeouts s = [] /\
    s0 = (resetGame now s r).1.

(** What happens during a game: the player clicks one of the rendered
    cards (the buttons are [cards.map((card, i) => ...)], so [i] is a
    position of [cards]), or the pending timeout fires. *)
Inductive session_step : State -> State -> Prop :=
  | step_click (i : nat) (s : State) :
      i < length (cards s) -> session_step s (flipCard (Z.of_nat i) s)
  | step_timeout (s : State) :
      timeouts s <> [] -> session_step s (run_timeout s).

(** The invariants of the session at rest: no index is both flipped and
    matched while clicks are enabled, and the matched indices come in
    whole groups. *)
Definition at_rest_invariants (s : State) : Prop :=
  (disabled s = false -> forall i, i ∈ flipped s -> i ∉ matched s)
  /\ length (matched s) mod difficultyMultiplier (difficulty s) = 0.

(** The shape of the state during such a game. *)
Record session_inv (s : State) : Prop := {
  inv_nodup : NoDup (flipped s ++ matched s);
  inv_range : forall i, i ∈ flipped s ++ matched s -> in_deck (cards s) i;
  inv_groups : length (matched s) mod difficultyMultiplier (difficulty s) = 0;
  inv_deck : 0 < length (cards s);
  inv_moves :
    length (matched s)
    + difficultyMultiplier (difficulty s) * length (timeouts s)
    <= difficultyMultiplier (difficulty s) * moves s;
  inv_pending :
    match timeouts s with
    | [] => disabled s = false
            /\ length (flipped s) < difficultyMultiplier (difficulty s)
    | [c] => disabled s = true
             /\ group_of c = flipped s
             /\ t_cards c = cards s
             /\ length (flipped s) = difficultyMultiplier (difficulty s)
    | _ => False
    end
}.

(** *** Concrete games used to exercise the statements *)

(** Single-character tokens, as the filter on the fetched list leaves
    them. *)
Definition demo_pool : list string :=
  ["A"; "B"; "C"; "D"; "E"; "F"; "G"; "H"]%string.

(** A generator whose draws are all equal (the stable sort then keeps the
    input order) and one whose draws differ. *)
Definition flat_rng : Rng := fun _ => 0%Z.
Definition mixed_rng : Rng := fun n => Z.of_nat ((n * 7 + 3) mod 11).

Definition demo_loaded : State := setEmojiList demo_pool initial.

(** A 4x4 game of pairs: the deck is A A B B ... H H. *)
Definition demo_game : State := (resetGame 0 demo_loaded flat_rng).1.

Definition demo_heap : Heap :=
  {| strings_of := [demo_pool]; keyed_of := [] |}.

(** The scenarios of the specification: five tokens for a 4x4 grid of
    triples, and three tokens where a 4x4 grid of pairs needs eight. *)
Definition five_tokens : State := setEmojiList (take 5 demo_pool) initial.
Definition three_tokens : State := setEmojiList (take 3 demo_pool) initial.

(** The demo game after the click on card 0, and after a call of
    [flipCard] with an index that is no position of the 16-card deck. *)
Definition demo_one_flipped : State := flipCard 0 demo_game.
Definition demo_outside_flipped : State := flipCard 20 demo_game.

(** A 2x2 game of pairs on two tokens (the deck is A A B B), played to
    the end in two moves. *)
Definition tiny_loaded : State :=
  setGridSize 2 (setEmojiList (take 2 demo_pool) initial).
Definition tiny_game : State := (resetGame 0 tiny_loaded flat_rng).1.
Definition tiny_half : State :=
  run_timeout (flipCard (Z.of_nat 1) (flipCard (Z.of_nat 0) tiny_game)).
Definition tiny_won : State :=
  run_timeout (flipCard (Z.of_nat 3) (flipCard (Z.of_nat 2) tiny_half)).

(** The demo game with the pair at 0 and 1 flipped and its match check
    pending; the player then selects "medium" before the check runs, and
    the check runs in the game of triples that the selection started. *)
Definition pair_pending : State := flipCard 1 (flipCard 0 demo_game).
Definition switched_to_triples : State :=
  (selectDifficulty 1 medium pair_pending mixed_rng).1.
Definition after_stale_check : State := run_timeout switched_to_triples.

(* ===================================================================== *)
(** ** formatTime, the rendered cards, and sequences of clicks *)
(* ===================================================================== *)

(** [n.toString()] for an integer [n] of magnitude at most 2^53, the
    integers a JavaScript number holds exactly: the decimal digits, with a
    leading minus sign for a negative number.  (From 10^21 on JavaScript
    prints an exponent instead; the properties of [formatTime] below are
    stated for seconds up to 2^53 only.) *)
Definition toString (n : Z) : string := pretty n.

(** The first [n] characters of [rest] followed by [filler] repeated for
    ever: the filler of [padStart], with [rest] the part of the current
    copy of [filler] that is still to be written. *)
Fixpoint repeat_to (n : nat) (filler rest : string) : string :=
  match n with
  | 0 => EmptyString
  | S n' =>
      match rest with
      | String c tl => String c (repeat_to n' filler tl)
      | EmptyString =>
          match filler with
          | String c tl => String c (repeat_to n' filler tl)
          | EmptyString => EmptyString
          end
      end
  end.

(** [s.padStart(maxLength, fillString)]. *)
Definition padStart (maxLength : nat) (fillString s : string) : string :=
  if decide (maxLength <= String.length s) then s
  else if decide (fillString = EmptyString) then s
  else (repeat_to (maxLength - String.length s) fillString fillString +:+ s)%string.

(** [formatTime(seconds)] for a whole number of seconds of magnitude at
    most 2^53, where the number arithmetic gives the integer results:
    [Math.floor(seconds / 60)] is the quotient rounded down,
    [seconds % 60] the remainder with the sign of [seconds]. *)
Definition formatTime (seconds : Z) : string :=
  let m := padStart 2 "0" (toString (seconds / 60)%Z) in
  let s := padStart 2 "0" (toString (Z.rem seconds 60)) in
  (m +:+ ":" +:+ s)%string.

(** What the button of card [i] shows: [isFlipped ? card : "?"] with
    [isFlipped = flipped.includes(i) || matched.includes(i)].  The
    placeholder of the source is the question-mark emoji. *)
Definition isFlipped (i : nat) (s : State) : bool :=
  includes (flipped s) (Z.of_nat i) || includes (matched s) (Z.of_nat i).

Definition placeholder : string := "❓".

Definition rendered_cards (s : State) : list string :=
  imap (fun i card => if isFlipped i s then card else placeholder) (cards s).

(** The player clicks the cards of [g] one after the other. *)
Definition flip_all (g : list Z) (s : State) : State :=
  foldl (fun st i => flipCard i st) s g.

(** A generator that yields the keys of [ks] first. *)
Definition rng_of (ks : list Z) : Rng := fun n => nth n ks 0%Z.

(** The elements of [p] tagged with their positions as keys. *)
Definition ranked (p : list string) : list Keyed :=
  imap (fun i v => {| value := v; sort := Z.of_nat i |}) p.

(** One more on every key. *)
Definition shift_key (x : Keyed) : Keyed :=
  {| value := value x; sort := (sort x + 1)%Z |}.

Definition demo_reordered : list string :=
  ["D"; "B"; "C"; "A"; "H"; "G"; "F"; "E"]%string.

(** A fetched list in which a token occurs twice. *)
Definition repeated_tokens : State :=
  setEmojiList ["A"; "B"; "A"; "C"]%string initial.

(** The selections made before the list of emojis has arrived, then its
    arrival. *)
Definition configured_then_loaded (now0 now1 now2 : Z) (n : nat) (d : Difficulty)
    (l : list string) (r : Rng) : State * Rng :=
  let (s1, r1) := selectGridSize now0 n initial r in
  let (s2, r2) := selectDifficulty now1 d s1 r1 in
  emojisLoaded now2 l s2 r2.

(** The matched indices are made of whole groups: lists of [mult] indices
    whose cards are identical, one after the other. *)
Definition whole_groups (cs : list string) (mult : nat) (m : list Z) : Prop :=
  exists groups,
    m = concat groups
    /\ Forall (fun g => length g = mult /\ same_tokens cs g) groups.

(** The positions of the deck that are not matched yet, those of a list
    of positions that show a given card, and the state between two moves:
    clicks enabled, nothing flipped, no check pending. *)
Definition unmatched_positions (s : State) : list nat :=
  filter (fun i => Z.of_nat i ∉ matched s) (seq 0 (length (cards s))).

Definition showing (cs : list string) (t : option string) (l : list nat) : list nat :=
  filter (fun i => cs !! i = t) l.

Definition between_moves (s : State) : Prop :=
  disabled s = false /\ flipped s = [] /\ timeouts s = [].

(** Of every token, the cards still to be matched come in whole groups. *)
Definition groups_remain (s : State) : Prop :=
  forall t,
    length (showing (cards s) t (unmatched_positions s))
      mod difficultyMultiplier (difficulty s) = 0.

(** The two decimal digits of a number below 100, and the indices whose
    button shows its card. *)
Definition two_digits (k : Z) : string :=
  String (pretty_N_char (Z.to_N (k / 10)))
    (String (pretty_N_char (Z.to_N (k mod 10))) EmptyString).

Definition face_up (s : State) : list nat :=
  filter (fun i => isFlipped i s = true) (seq 0 (length (cards s))).

(** The oldest match check that is pending in [pair_pending]. *)
Definition pending_pair_check : Timeout :=
  {| t_flipped := [0%Z]; t_index := 1; t_cards := cards demo_game |}.

(** The player flips the pair at 0 and 1 of the 4x4 game of pairs and
    selects "hard" before the check runs; in the game of quadruples that
    starts, the player then clicks the cards 0 to 3, which completes a
    group while the check of the old pair is still pending. *)
Definition hard_after_pair : State :=
  (selectDifficulty 1 hard pair_pending mixed_rng).1.
Definition four_flipped : State := flip_all [0; 1; 2; 3]%Z hard_after_pair.

(** Twelve tokens, draws that go up, and a 5x5 game of pairs (24 cards,
    A A B B ... L L) in which the pair at 0 and 1 is flipped; the player
    selects the 4x4 grid before the check runs, the check of the old pair
    runs in the 4x4 game (A A B B ... H H), and the player matches the
    seven other pairs. *)
Definition wide_pool : list string :=
  ["A"; "B"; "C"; "D"; "E"; "F"; "G"; "H"; "I"; "J"; "K"; "L"]%string.
Definition rising_rng : Rng := fun n => Z.of_nat n.
Definition wide_game : State :=
  (resetGame 0 (setGridSize 5 (setEmojiList wide_pool initial)) rising_rng).1.
Definition wide_pending : State := flipCard 1 (flipCard 0 wide_game).
Definition small_restarted : State :=
  (selectGridSize 1 4 wide_pending rising_rng).1.
Definition play_pair (i : Z) (s : State) : State :=
  run_timeout (flipCard (i + 1) (flipCard i s)).
Definition won_below_ideal : State :=
  play_pair 14 (play_pair 12 (play_pair 10 (play_pair 8 (play_pair 6
    (play_pair 4 (play_pair 2 (run_timeout small_restarted))))))).

(* ===================================================================== *)
(** * Properties *)
(* ===================================================================== *)

(** ** shuffleArray *)

Section Shuffle.

Variable cmp : Keyed -> Keyed -> Z.

Lemma place_perm (x : Keyed) (l : list Keyed) : place cmp x l ≡ₚ x :: l.
Proof.
  induction l as [|y l IH]; simpl; [done|].
  destruct (0 <? cmp x y)%Z; [|done].
  rewrite IH. apply Permutation_swap.
Qed.

Lemma array_sort_perm (l : list Keyed) : array_sort cmp l ≡ₚ l.
Proof.
  unfold array_sort. induction l as [|x l IH]; simpl; [done|].
  by rewrite place_perm, IH.
Qed.

End Shuffle.

(** The sort does sort: the keys of the result are in non-decreasing
    order. *)
Lemma place_sorted (x : Keyed) (l : list Keyed) :
  StronglySorted (fun a b => (sort a <= sort b)%Z) l ->
  StronglySorted (fun a b => (sort a <= sort b)%Z) (place by_sort_key x l).
Proof.
  induction 1 as [|y l Hs IH Hall]; simpl.
  - repeat constructor.
  - unfold by_sort_key at 1.
    destruct (Z.ltb_spec 0 (sort x - sort y)) as [Hlt|Hge].
    + constructor; [done|].
      rewrite (place_perm by_sort_key x l). constructor; [lia|done].
    + constructor; [by constructor|].
      constructor; [lia|].
      eapply Forall_impl; [exact Hall|]. simpl. intros; lia.
Qed.

Lemma array_sort_sorted (l : list Keyed) :
  StronglySorted (fun a b => (sort a <= sort b)%Z) (array_sort by_sort_key l).
Proof.
  unfold array_sort. induction l as [|x l IH]; simpl.
  - constructor.
  - by apply place_sorted.
Qed.

Lemma attach_keys_values (arr : list string) (r : Rng) :
  map value (attach_keys arr r).1 = arr.
Proof.
  revert r. induction arr as [|v arr IH]; intros r; simpl; [done|].
  specialize (IH (fun n => r (S n))).
  destruct (attach_keys arr (fun n => r (S n))) as [tagged r2]. simpl in *.
  by rewrite IH.
Qed.

Lemma shuffleArray_value (arr : list string) (r : Rng) :
  (shuffleArray arr r).1
  = map value (array_sort by_sort_key (attach_keys arr r).1).
Proof. unfold shuffleArray. by destruct (attach_keys arr r). Qed.

Lemma shuffleArray_perm (arr : list string) (r : Rng) :
  (shuffleArray arr r).1 ≡ₚ arr.
Proof.
  rewrite shuffleArray_value.
  rewrite (array_sort_perm by_sort_key). by rewrite attach_keys_values.
Qed.

Lemma shuffleArray_length (arr : list string) (r : Rng) :
  length (shuffleArray arr r).1 = length arr.
Proof. by rewrite shuffleArray_perm. Qed.

(** C5. For every array on the heap, [shuffleArray] returns (it never
    fails) a reference to a newly allocated array whose content is a
    permutation of the input's content, hence of the same length and with
    every value occurring as often as in the input; the input array, and
    every other array of strings that existed before the call, has the
    content it had. *)
Theorem shuffleArray_permutes_without_mutation
    (h : Heap) (arr : nat) (r : Rng) (content : list string) :
  strings_of h !! arr = Some content ->
  exists h' out r',
    shuffleArray_heap h arr r = Some (h', out, r')
    /\ (forall a l, strings_of h !! a = Some l -> strings_of h' !! a = Some l)
    /\ strings_of h' !! arr = Some content
    /\ length (strings_of h) <= out
    /\ strings_of h' !! out = Some (shuffleArray content r).1
    /\ (shuffleArray content r).1 ≡ₚ content
    /\ length (shuffleArray content r).1 = length content
    /\ (forall t, occurrences t (shuffleArray content r).1 = occurrences t content).
Proof.
  intros Hin.
  unfold shuffleArray_heap. rewrite Hin. simpl.
  rewrite shuffleArray_value.
  destruct (attach_keys content r) as [tagged r1] eqn:Hk. simpl.
  unfold sort_in_place. simpl.
  rewrite lookup_app_r by lia. rewrite Nat.sub_diag. simpl.
  rewrite list_lookup_insert_eq by (rewrite length_app; simpl; lia). simpl.
  eexists _, _, _. split; [reflexivity|]. simpl.
  assert (Hp : map value (array_sort by_sort_key tagged) ≡ₚ content).
  { rewrite (array_sort_perm by_sort_key).
    replace tagged with (attach_keys content r).1 by (by rewrite Hk).
    by rewrite attach_keys_values. }
  repeat split.
  - intros a l Ha. rewrite lookup_app_l; [done|]. by eapply lookup_lt_Some.
  - rewrite lookup_app_l; [done|]. by eapply lookup_lt_Some.
  - lia.
  - rewrite lookup_app_r by lia. by rewrite Nat.sub_diag.
  - done.
  - by rewrite Hp.
  - intros t. unfold occurrences. by rewrite Hp.
Qed.

Lemma shuffleArray_permutes_without_mutation_witness :
  exists h' out r',
    shuffleArray_heap demo_heap 0 mixed_rng = Some (h', out, r')
    /\ (forall a l, strings_of demo_heap !! a = Some l -> strings_of h' !! a = Some l)
    /\ strings_of h' !! 0 = Some demo_pool
    /\ length (strings_of demo_heap) <= out
    /\ strings_of h' !! out = Some (shuffleArray demo_pool mixed_rng).1
    /\ (shuffleArray demo_pool mixed_rng).1 ≡ₚ demo_pool
    /\ length (shuffleArray demo_pool mixed_rng).1 = length demo_pool
    /\ (forall t, occurrences t (shuffleArray demo_pool mixed_rng).1
                  = occurrences t demo_pool).
Proof.
  apply (shuffleArray_permutes_without_mutation demo_heap 0 mixed_rng demo_pool).
  reflexivity.
Defined.

(** ** startNewGame: the deck *)

Lemma push_times_replicate (n : nat) (emoji : string) (deck : list string) :
  push_times n emoji deck = deck ++ replicate n emoji.
Proof.
  revert deck. induction n as [|n IH]; intros deck; simpl.
  - by rewrite app_nil_r.
  - rewrite IH. by rewrite <- app_assoc.
Qed.

Lemma duplicate_each_from (mult : nat) (selected acc : list string) :
  foldl (fun deck emoji => push_times mult emoji deck) acc selected
  = acc ++ concat (map (replicate mult) selected).
Proof.
  revert acc. induction selected as [|e selected IH]; intros acc; simpl.
  - by rewrite app_nil_r.
  - rewrite IH, push_times_replicate. by rewrite <- app_assoc.
Qed.

Lemma duplicate_each_concat (mult : nat) (selected : list string) :
  duplicate_each mult selected = concat (map (replicate mult) selected).
Proof. unfold duplicate_each. by rewrite duplicate_each_from. Qed.

Lemma duplicate_each_length (mult : nat) (selected : list string) :
  length (duplicate_each mult selected) = length selected * mult.
Proof.
  rewrite duplicate_each_concat.
  induction selected as [|e selected IH]; simpl; [done|].
  rewrite length_app, length_replicate, IH. lia.
Qed.

Lemma occurrences_app (t : string) (l k : list string) :
  occurrences t (l ++ k) = occurrences t l + occurrences t k.
Proof. unfold occurrences. by rewrite filter_app, length_app. Qed.

Lemma occurrences_replicate (t e : string) (n : nat) :
  occurrences t (replicate n e) = if decide (e = t) then n else 0.
Proof.
  unfold occurrences. induction n as [|n IH]; simpl.
  - by destruct (decide (e = t)).
  - rewrite filter_cons. destruct (decide (e = t)); simpl; by rewrite IH.
Qed.

Lemma occurrences_absent (t : string) (l : list string) :
  t ∉ l -> occurrences t l = 0.
Proof.
  unfold occurrences. induction l as [|x l IH]; intros Hn; [done|].
  rewrite not_elem_of_cons in Hn. destruct Hn as [Hne Hn].
  rewrite filter_cons. destruct (decide (x = t)); [congruence|]. by apply IH.
Qed.

Lemma occurrences_nodup (t : string) (l : list string) :
  NoDup l -> t ∈ l -> occurrences t l = 1.
Proof.
  induction 1 as [|x l Hx Hnd IH]; intros Hin.
  - by apply elem_of_nil in Hin.
  - change (x :: l) with ([x] ++ l). rewrite occurrences_app.
    change [x] with (replicate 1 x). rewrite occurrences_replicate.
    destruct (decide (x = t)) as [->|Hne].
    + by rewrite occurrences_absent.
    + apply elem_of_cons in Hin as [->|Hin]; [done|]. by rewrite IH.
Qed.

Lemma occurrences_duplicate_each (t : string) (mult : nat) (selected : list string) :
  occurrences t (duplicate_each mult selected) = mult * occurrences t selected.
Proof.
  rewrite duplicate_each_concat.
  induction selected as [|e selected IH]; simpl.
  - unfold occurrences. simpl. lia.
  - rewrite occurrences_app, IH, occurrences_replicate.
    change (e :: selected) with ([e] ++ selected).
    rewrite occurrences_app. change [e] with (replicate 1 e).
    rewrite occurrences_replicate. destruct (decide (e = t)); lia.
Qed.

Lemma elem_of_duplicate_each (t : string) (mult : nat) (selected : list string) :
  t ∈ duplicate_each mult selected -> t ∈ selected.
Proof.
  rewrite duplicate_each_concat.
  induction selected as [|e selected IH]; simpl.
  - done.
  - rewrite elem_of_app. intros [Hin|Hin].
    + apply elem_of_replicate in Hin as [-> _]. by left.
    + right. by apply IH.
Qed.

Lemma tokens_of_duplicate_each (mult : nat) (selected : list string) :
  0 < mult ->
  (list_to_set (duplicate_each mult selected) : gset string) = list_to_set selected.
Proof.
  intros Hm. apply set_eq. intros t. rewrite !elem_of_list_to_set. split.
  - apply elem_of_duplicate_each.
  - rewrite duplicate_each_concat. intros Hin.
    induction selected as [|e selected IH]; simpl.
    + by apply elem_of_nil in Hin.
    + rewrite elem_of_app. apply elem_of_cons in Hin as [->|Hin].
      * left. apply elem_of_replicate. split; [done|lia].
      * right. by apply IH.
Qed.

Lemma difficultyMultiplier_bounds (d : Difficulty) :
  2 <= difficultyMultiplier d <= 4.
Proof. destruct d; simpl; lia. Qed.

(** [adjustedTotal / mult] is the integer quotient of the grid's cells by
    the group size. *)
Lemma uniqueNeeded_quotient (total mult : nat) :
  0 < mult -> (total - total mod mult) / mult = total / mult.
Proof.
  intros Hm.
  assert (H := Nat.div_mod_eq total mult).
  replace (total - total mod mult) with (total / mult * mult) by lia.
  by rewrite Nat.div_mul by lia.
Qed.

(** The deck [startNewGame] installs, up to the order of the cards. *)
Lemma startNewGame_cards (now : Z) (size : nat) (diff : Difficulty)
    (s : State) (r : Rng) :
  emojiList s <> [] ->
  cards (startNewGame now size diff s r).1
  ≡ₚ duplicate_each (difficultyMultiplier diff)
       (take (size * size / difficultyMultiplier diff)
             (shuffleArray (emojiList s) r).1).
Proof.
  intros Hne. unfold startNewGame.
  destruct (decide (length (emojiList s) = 0)) as [H0|_].
  { by apply length_zero_iff_nil in H0. }
  rewrite uniqueNeeded_quotient by (pose proof (difficultyMultiplier_bounds diff); lia).
  destruct (shuffleArray (emojiList s) r) as [shuffled r1]. simpl.
  match goal with |- context [shuffleArray ?d r1] =>
    pose proof (shuffleArray_perm d r1) as Hp;
    destruct (shuffleArray d r1) as [final r2] end.
  exact Hp.
Qed.

Lemma startNewGame_resets (now : Z) (size : nat) (diff : Difficulty)
    (s : State) (r : Rng) :
  emojiList s <> [] ->
  let s' := (startNewGame now size diff s r).1 in
  flipped s' = [] /\ matched s' = [] /\ disabled s' = false /\ moves s' = 0
  /\ difficulty s' = difficulty s /\ timeouts s' = timeouts s
  /\ gridSize s' = gridSize s /\ emojiList s' = emojiList s.
Proof.
  intros Hne. unfold startNewGame.
  destruct (decide (length (emojiList s) = 0)) as [H0|_].
  { by apply length_zero_iff_nil in H0. }
  destruct (shuffleArray (emojiList s) r) as [shuffled r1].
  match goal with |- context [shuffleArray ?d r1] =>
    destruct (shuffleArray d r1) as [final r2] end.
  simpl. repeat split.
Qed.

(** C1. With a grid side of at least 2, any of the three group sizes and a
    pool of distinct tokens that has at least floor(gridSize^2 / groupSize)
    of them, the deck [startNewGame] installs has the largest multiple of
    the group size that does not exceed gridSize^2 as its length, every
    token of the deck occurs exactly groupSize times in it, and the number
    of distinct tokens is the deck length divided by the group size. *)
Theorem startNewGame_deck_shape
    (now : Z) (size : nat) (diff : Difficulty) (s : State) (r : Rng) :
  2 <= size ->
  NoDup (emojiList s) ->
  size * size / difficultyMultiplier diff <= length (emojiList s) ->
  let mult := difficultyMultiplier diff in
  let deck := cards (startNewGame now size diff s r).1 in
  length deck = size * size - (size * size) mod mult
  /\ length deck mod mult = 0
  /\ length deck <= size * size
  /\ (forall m, m mod mult = 0 -> m <= size * size -> m <= length deck)
  /\ (forall t, t ∈ deck -> occurrences t deck = mult)
  /\ base.size (list_to_set deck : gset string) = length deck / mult.
Proof.
  intros Hsize Hnd Hpool mult deck.
  pose proof (difficultyMultiplier_bounds diff) as Hm. fold mult in Hm, Hpool.
  assert (Hq : 1 <= size * size / mult).
  { apply Nat.div_le_lower_bound; nia. }
  assert (Hne : emojiList s <> []).
  { intros E. rewrite E in Hpool. simpl in Hpool. lia. }
  pose proof (startNewGame_cards now size diff s r Hne) as Hdeck.
  fold mult deck in Hdeck.
  set (selected := take (size * size / mult) (shuffleArray (emojiList s) r).1) in *.
  assert (Hlen_sel : length selected = size * size / mult).
  { unfold selected. rewrite length_take, shuffleArray_length. lia. }
  assert (Hnd_sel : NoDup selected).
  { unfold selected. eapply sublist_NoDup; [|apply sublist_take].
    by rewrite shuffleArray_perm. }
  assert (Hlen : length deck = size * size / mult * mult).
  { by rewrite Hdeck, duplicate_each_length, Hlen_sel. }
  pose proof (Nat.div_mod_eq (size * size) mult) as Hdm.
  repeat split.
  - lia.
  - rewrite Hlen. apply Nat.Div0.mod_mul.
  - lia.
  - intros m Hmod Hle. rewrite Hlen.
    pose proof (Nat.div_mod_eq m mult) as Hm'. rewrite Hmod in Hm'.
    assert (m / mult <= size * size / mult) by (apply Nat.Div0.div_le_mono; lia).
    nia.
  - intros t Hin. unfold occurrences. rewrite Hdeck.
    fold (occurrences t (duplicate_each mult selected)).
    rewrite occurrences_duplicate_each.
    rewrite Hdeck in Hin. apply elem_of_duplicate_each in Hin.
    rewrite occurrences_nodup by done. lia.
  - rewrite Hlen, Nat.div_mul by lia.
    assert (Hset : (list_to_set deck : gset string) = list_to_set selected).
    { rewrite <- (tokens_of_duplicate_each mult selected) by lia.
      apply set_eq. intros t. rewrite !elem_of_list_to_set. by rewrite Hdeck. }
    rewrite Hset, size_list_to_set by done. done.
Qed.

Lemma startNewGame_deck_shape_witness :
  let deck := cards (startNewGame 0 4 medium five_tokens mixed_rng).1 in
  length deck = 4 * 4 - (4 * 4) mod 3
  /\ length deck mod 3 = 0
  /\ length deck <= 4 * 4
  /\ (forall m, m mod 3 = 0 -> m <= 4 * 4 -> m <= length deck)
  /\ (forall t, t ∈ deck -> occurrences t deck = 3)
  /\ base.size (list_to_set deck : gset string) = length deck / 3.
Proof.
  apply (startNewGame_deck_shape 0 4 medium five_tokens mixed_rng).
  - lia.
  - apply (bool_decide_unpack _). vm_compute. reflexivity.
  - vm_compute. lia.
Defined.

(** C2, as the code has it.  A pool shorter than the number of tokens the
    grid needs raises nothing: an empty pool leaves the component as it
    was (no game is started), and a non-empty one starts a game on a
    shorter deck, made of every token of the pool groupSize times. *)
Theorem startNewGame_short_pool
    (now : Z) (size : nat) (diff : Difficulty) (s : State) (r : Rng) :
  NoDup (emojiList s) ->
  length (emojiList s) < size * size / difficultyMultiplier diff ->
  let mult := difficultyMultiplier diff in
  let s' := (startNewGame now size diff s r).1 in
  (emojiList s = [] -> startNewGame now size diff s r = (s, r))
  /\ (emojiList s <> [] ->
      length (cards s') = length (emojiList s) * mult
      /\ length (cards s') < size * size - (size * size) mod mult
      /\ (forall t, t ∈ emojiList s -> occurrences t (cards s') = mult)
      /\ (forall t, t ∈ cards s' -> t ∈ emojiList s)
      /\ flipped s' = [] /\ matched s' = [] /\ disabled s' = false
      /\ moves s' = 0).
Proof.
  intros Hnd Hshort mult s'. split.
  - intros E. unfold startNewGame. rewrite E. reflexivity.
  - intros Hne.
    pose proof (difficultyMultiplier_bounds diff) as Hm. fold mult in Hm, Hshort.
    pose proof (startNewGame_cards now size diff s r Hne) as Hdeck.
    fold mult s' in Hdeck.
    rewrite take_ge in Hdeck by (rewrite shuffleArray_length; lia).
    pose proof (Nat.div_mod_eq (size * size) mult) as Hdm.
    pose proof (startNewGame_resets now size diff s r Hne) as (Hf & Hma & Hd & Hmv & _).
    fold s' in Hf, Hma, Hd, Hmv.
    assert (Hlen : length (cards s') = length (emojiList s) * mult).
    { by rewrite Hdeck, duplicate_each_length, shuffleArray_length. }
    repeat split; try done.
    + nia.
    + intros t Hin. unfold occurrences. rewrite Hdeck.
      fold (occurrences t (duplicate_each mult (shuffleArray (emojiList s) r).1)).
      rewrite occurrences_duplicate_each.
      rewrite occurrences_nodup; [lia| |]; by rewrite shuffleArray_perm.
    + intros t Hin. rewrite Hdeck in Hin.
      apply elem_of_duplicate_each in Hin. by rewrite shuffleArray_perm in Hin.
Qed.

Lemma startNewGame_short_pool_witness :
  let s' := (startNewGame 0 4 easy three_tokens mixed_rng).1 in
  (emojiList three_tokens = [] ->
   startNewGame 0 4 easy three_tokens mixed_rng = (three_tokens, mixed_rng))
  /\ (emojiList three_tokens <> [] ->
      length (cards s') = length (emojiList three_tokens) * 2
      /\ length (cards s') < 4 * 4 - (4 * 4) mod 2
      /\ (forall t, t ∈ emojiList three_tokens -> occurrences t (cards s') = 2)
      /\ (forall t, t ∈ cards s' -> t ∈ emojiList three_tokens)
      /\ flipped s' = [] /\ matched s' = [] /\ disabled s' = false
      /\ moves s' = 0).
Proof.
  apply (startNewGame_short_pool 0 4 easy three_tokens mixed_rng).
  - apply (bool_decide_unpack _). vm_compute. reflexivity.
  - vm_compute. lia.
Defined.

(** C2 as stated fails: three tokens where a 4x4 grid of pairs needs eight
    do not stop [startNewGame]; it installs a deck of 6 cards for the 16
    cells. *)
Lemma short_pool_starts_underfilled_game :
  length (emojiList three_tokens) = 3
  /\ 4 * 4 / difficultyMultiplier easy = 8
  /\ cards three_tokens = []
  /\ cards (startNewGame 0 4 easy three_tokens flat_rng).1
     = ["A"; "A"; "B"; "B"; "C"; "C"]%string
  /\ startTime (startNewGame 0 4 easy three_tokens flat_rng).1 = Some 0%Z.
Proof. repeat split. Qed.

(** ** flipCard *)

Lemma accepted_true (index : Z) (s : State) :
  accepted index s = true
  <-> disabled s = false /\ (index ∉ flipped s) /\ (index ∉ matched s).
Proof.
  unfold accepted, includes.
  rewrite negb_true_iff, !orb_false_iff, !bool_decide_eq_false. tauto.
Qed.

Lemma accepted_false (index : Z) (s : State) :
  accepted index s = false
  <-> disabled s = true \/ index ∈ flipped s \/ index ∈ matched s.
Proof.
  unfold accepted, includes.
  rewrite negb_false_iff, !orb_true_iff, !bool_decide_eq_true. tauto.
Qed.

Lemma flipCard_rejected (index : Z) (s : State) :
  accepted index s = false -> flipCard index s = s.
Proof.
  unfold accepted, flipCard. rewrite negb_false_iff. by intros ->.
Qed.

(** What an accepted click does, in its two branches. *)
Lemma flipCard_accepted (index : Z) (s : State) :
  accepted index s = true ->
  flipCard index s
  = if decide (length (flipped s) = difficultyMultiplier (difficulty s) - 1)
    then setTimeouts
           (timeouts s ++ [{| t_flipped := flipped s; t_index := index;
                              t_cards := cards s |}])
           (setMoves (moves s + 1)
              (setDisabled true (setFlipped (flipped s ++ [index]) s)))
    else setFlipped (flipped s ++ [index]) s.
Proof.
  unfold accepted, flipCard. rewrite negb_true_iff. by intros ->.
Qed.

Lemma flipCard_accepted_fields (index : Z) (s : State) :
  accepted index s = true ->
  let s' := flipCard index s in
  flipped s' = flipped s ++ [index] /\ matched s' = matched s
  /\ cards s' = cards s /\ difficulty s' = difficulty s.
Proof.
  intros Hacc. simpl. rewrite flipCard_accepted by done.
  by destruct (decide _).
Qed.

(** C6, as the code has it.  [flipCard] leaves the whole state as it was
    exactly when clicks are disabled or the index is already flipped or
    already matched, and it never fails; whether a deck exists plays no
    part. *)
Theorem flipCard_ignored_iff (index : Z) (s : State) :
  flipCard index s = s
  <-> disabled s = true \/ index ∈ flipped s \/ index ∈ matched s.
Proof.
  rewrite <- accepted_false. split.
  - intros Heq. destruct (accepted index s) eqn:Hacc; [|done].
    pose proof (flipCard_accepted_fields index s Hacc) as (Hf & _).
    rewrite Heq in Hf. apply (f_equal length) in Hf.
    rewrite length_app in Hf. simpl in Hf. lia.
  - apply flipCard_rejected.
Qed.

(** C6 as stated fails: before any deck exists (the state of the first
    render) a call of [flipCard] is not ignored, the index becomes a
    flipped one. *)
Lemma flipCard_before_deck_not_ignored :
  cards initial = []
  /\ flipCard 0 initial <> initial
  /\ flipped (flipCard 0 initial) = [0%Z].
Proof.
  repeat split. intros Heq. apply (f_equal flipped) in Heq. discriminate.
Qed.

Lemma flipCard_moves (index : Z) (s : State) :
  moves (flipCard index s)
  = if accepted index s
       && bool_decide (length (flipped (flipCard index s))
                       = difficultyMultiplier (difficulty s))
    then moves s + 1 else moves s.
Proof.
  pose proof (difficultyMultiplier_bounds (difficulty s)) as Hm.
  destruct (accepted index s) eqn:Hacc; simpl.
  - rewrite flipCard_accepted by done.
    destruct (decide _) as [He|Hne]; simpl.
    + rewrite bool_decide_eq_true_2; [done|]. rewrite length_app. simpl. lia.
    + rewrite bool_decide_eq_false_2; [done|]. rewrite length_app. simpl. lia.
  - by rewrite flipCard_rejected.
Qed.

Lemma timeout_callback_moves (c : Timeout) (s : State) :
  moves (timeout_callback c s) = moves s.
Proof. unfold timeout_callback. by destruct (all_match _). Qed.

Lemma run_timeout_moves (s : State) : moves (run_timeout s) = moves s.
Proof.
  unfold run_timeout. destruct (timeouts s) as [|c rest]; [done|].
  by rewrite timeout_callback_moves.
Qed.


(** ** The match check *)

Lemma all_match_same_tokens (cs : list string) (g : list Z) :
  all_match (map (card_at cs) g) = true <-> same_tokens cs g.
Proof.
  unfold all_match, same_tokens. rewrite forallb_forall. split.
  - intros H i j Hi Hj.
    assert (Hx : forall k, k ∈ g ->
              card_at cs k = default None (head (map (card_at cs) g))).
    { intros k Hk.
      assert (Hin : In (card_at cs k) (map (card_at cs) g)).
      { apply in_map. by apply list_elem_of_In. }
      apply H in Hin. by apply bool_decide_eq_true in Hin. }
    by rewrite (Hx i), (Hx j).
  - intros H e He. rewrite bool_decide_eq_true.
    apply in_map_iff in He as (i & <- & Hi). apply list_elem_of_In in Hi.
    destruct g as [|j g]; [by apply elem_of_nil in Hi|]. simpl.
    apply H; [done|by left].
Qed.

(** The callback on an arbitrary state: the decision is taken on the
    captured cards and indices. *)
Lemma timeout_callback_outcome (c : Timeout) (s : State) :
  let s' := timeout_callback c s in
  flipped s' = [] /\ disabled s' = false
  /\ cards s' = cards s /\ difficulty s' = difficulty s
  /\ timeouts s' = timeouts s
  /\ (same_tokens (t_cards c) (group_of c) -> matched s' = matched s ++ group_of c)
  /\ (~ same_tokens (t_cards c) (group_of c) -> matched s' = matched s).
Proof.
  simpl. unfold timeout_callback. fold (group_of c).
  pose proof (all_match_same_tokens (t_cards c) (group_of c)) as Hiff.
  destruct (all_match (map (card_at (t_cards c)) (group_of c))); simpl.
  - repeat split; try done. intros Hn. exfalso. apply Hn. by apply Hiff.
  - repeat split; try done. intros Hs. apply Hiff in Hs. discriminate.
Qed.

(** With no other check pending: when an accepted click completes a group,
    the match check that runs afterwards empties [flipped] and re-enables
    clicks in both branches; if the cards at all the flipped indices are identical the
    indices are appended to [matched] (so each of them is matched and none
    is flipped any more), and if two of them differ [matched] is left as
    it was. *)
Theorem completed_group_resolution (index : Z) (s : State) :
  accepted index s = true ->
  length (flipped s) = difficultyMultiplier (difficulty s) - 1 ->
  timeouts s = [] ->
  let s1 := flipCard index s in
  let s2 := run_timeout s1 in
  length (flipped s1) = difficultyMultiplier (difficulty s)
  /\ flipped s1 = flipped s ++ [index]
  /\ disabled s1 = true
  /\ flipped s2 = [] /\ disabled s2 = false
  /\ (same_tokens (cards s1) (flipped s1) ->
      matched s2 = matched s1 ++ flipped s1
      /\ forall i, i ∈ flipped s1 -> i ∈ matched s2 /\ i ∉ flipped s2)
  /\ ((exists i j, i ∈ flipped s1 /\ j ∈ flipped s1
                   /\ card_at (cards s1) i <> card_at (cards s1) j) ->
      matched s2 = matched s1).
Proof.
  intros Hacc Hlen Hnone s1 s2.
  pose proof (difficultyMultiplier_bounds (difficulty s)) as Hm.
  assert (Hs1 : s1 = setTimeouts
           [{| t_flipped := flipped s; t_index := index; t_cards := cards s |}]
           (setMoves (moves s + 1)
              (setDisabled true (setFlipped (flipped s ++ [index]) s)))).
  { unfold s1. rewrite flipCard_accepted by done.
    rewrite decide_True by done. by rewrite Hnone. }
  set (c := {| t_flipped := flipped s; t_index := index; t_cards := cards s |}) in *.
  assert (Hs2 : s2 = timeout_callback c (setTimeouts [] s1)).
  { unfold s2, run_timeout. by rewrite Hs1. }
  pose proof (timeout_callback_outcome c (setTimeouts [] s1))
    as (Hf & Hd & _ & _ & _ & Hyes & Hno).
  rewrite <- Hs2 in Hf, Hd, Hyes, Hno.
  assert (Hg : group_of c = flipped s1) by (by rewrite Hs1).
  assert (Hc : t_cards c = cards s1) by (by rewrite Hs1).
  rewrite Hg, Hc in Hyes, Hno. simpl in Hyes, Hno.
  assert (Hfl : flipped s1 = flipped s ++ [index]) by (by rewrite Hs1).
  assert (Hdis : disabled s1 = true) by (by rewrite Hs1).
  split; [rewrite Hfl, length_app; simpl; lia|].
  split; [exact Hfl|]. split; [exact Hdis|].
  split; [exact Hf|]. split; [exact Hd|]. split.
  - intros Hsame. split; [by apply Hyes|]. intros i Hi. split.
    + rewrite Hyes by done. apply elem_of_app. by right.
    + rewrite Hf. apply not_elem_of_nil.
  - intros (i & j & Hi & Hj & Hne). apply Hno. intros Hsame.
    apply Hne. by apply Hsame.
Qed.

Lemma completed_group_resolution_witness :
  let s1 := flipCard 1 demo_one_flipped in
  let s2 := run_timeout s1 in
  length (flipped s1) = difficultyMultiplier (difficulty demo_one_flipped)
  /\ flipped s1 = flipped demo_one_flipped ++ [1%Z]
  /\ disabled s1 = true
  /\ flipped s2 = [] /\ disabled s2 = false
  /\ (same_tokens (cards s1) (flipped s1) ->
      matched s2 = matched s1 ++ flipped s1
      /\ forall i, i ∈ flipped s1 -> i ∈ matched s2 /\ i ∉ flipped s2)
  /\ ((exists i j, i ∈ flipped s1 /\ j ∈ flipped s1
                   /\ card_at (cards s1) i <> card_at (cards s1) j) ->
      matched s2 = matched s1).
Proof.
  apply (completed_group_resolution 1 demo_one_flipped); reflexivity.
Defined.

(** ** Indices outside the deck *)

Lemma card_at_outside (cs : list string) (i : Z) :
  ~ in_deck cs i -> card_at cs i = None.
Proof.
  unfold in_deck, card_at. intros Hout.
  destruct (Z.ltb_spec i 0) as [Hneg|Hpos]; [done|].
  apply lookup_ge_None. lia.
Qed.

Lemma card_at_inside (cs : list string) (i : Z) :
  in_deck cs i -> is_Some (card_at cs i).
Proof.
  unfold in_deck, card_at. intros Hin.
  destruct (Z.ltb_spec i 0) as [Hneg|Hpos]; [lia|].
  apply lookup_lt_is_Some. lia.
Qed.

(** C10. [flipCard] has no bounds check: an accepted call with an index
    that is no position of the deck appends the index to [flipped], the
    card read at that index is [undefined], a match check on a group made
    of such indices finds all its cards identical and appends the group to
    [matched], and so does the check of the group this call completes when
    the indices flipped before are outside the deck too. *)
Theorem flipCard_outside_deck (index : Z) (s : State) :
  ~ in_deck (cards s) index ->
  accepted index s = true ->
  flipped (flipCard index s) = flipped s ++ [index]
  /\ card_at (cards s) index = None
  /\ (forall c s2,
        (forall i, i ∈ group_of c -> ~ in_deck (t_cards c) i) ->
        matched (timeout_callback c s2) = matched s2 ++ group_of c)
  /\ (length (flipped s) = difficultyMultiplier (difficulty s) - 1 ->
      timeouts s = [] ->
      (forall i, i ∈ flipped s -> ~ in_deck (cards s) i) ->
      matched (run_timeout (flipCard index s)) = matched s ++ flipped s ++ [index]).
Proof.
  intros Hout Hacc.
  assert (Hgroup : forall c s2,
            (forall i, i ∈ group_of c -> ~ in_deck (t_cards c) i) ->
            matched (timeout_callback c s2) = matched s2 ++ group_of c).
  { intros c s2 Hall.
    pose proof (timeout_callback_outcome c s2) as (_ & _ & _ & _ & _ & Hyes & _).
    apply Hyes. intros i j Hi Hj.
    by rewrite !card_at_outside by (by apply Hall). }
  split; [by apply flipCard_accepted_fields|].
  split; [by apply card_at_outside|].
  split; [exact Hgroup|].
  intros Hlen Hnone Hflipped.
  rewrite flipCard_accepted by done. rewrite decide_True by done.
  unfold run_timeout. cbn [timeouts setTimeouts]. rewrite Hnone. cbn [app].
  rewrite Hgroup; [done|].
  unfold group_of. simpl. intros i Hi.
  apply elem_of_app in Hi as [Hi|Hi]; [by apply Hflipped|].
  apply list_elem_of_singleton in Hi. by subst i.
Qed.

Lemma flipCard_outside_deck_witness :
  flipped (flipCard 21 demo_outside_flipped) = flipped demo_outside_flipped ++ [21%Z]
  /\ card_at (cards demo_outside_flipped) 21 = None
  /\ (forall c s2,
        (forall i, i ∈ group_of c -> ~ in_deck (t_cards c) i) ->
        matched (timeout_callback c s2) = matched s2 ++ group_of c)
  /\ (length (flipped demo_outside_flipped)
      = difficultyMultiplier (difficulty demo_outside_flipped) - 1 ->
      timeouts demo_outside_flipped = [] ->
      (forall i, i ∈ flipped demo_outside_flipped ->
                 ~ in_deck (cards demo_outside_flipped) i) ->
      matched (run_timeout (flipCard 21 demo_outside_flipped))
      = matched demo_outside_flipped ++ flipped demo_outside_flipped ++ [21%Z]).
Proof.
  apply (flipCard_outside_deck 21 demo_outside_flipped).
  - unfold in_deck. vm_compute. intros [_ H]. discriminate H.
  - reflexivity.
Defined.

(** ** The score *)

Local Open Scope Q_scope.

Lemma of_nat_ideal (idealMoves mult : nat) :
  (0 < mult)%nat ->
  of_nat (idealMoves * mult) / of_nat mult == of_nat idealMoves.
Proof.
  intros Hm. unfold of_nat.
  rewrite Nat2Z.inj_mul, inject_Z_mult.
  apply Qdiv_mult_l.
  intros H0. unfold Qeq in H0. simpl in H0. lia.
Qed.

Lemma efficiency_ideal (moveCount idealMoves mult : nat) :
  (0 < mult)%nat ->
  efficiency moveCount (idealMoves * mult) mult
  == Qmax 0 (100 - (of_nat moveCount - of_nat idealMoves) * 5).
Proof.
  intros Hm. unfold efficiency. by rewrite of_nat_ideal.
Qed.

Lemma of_nat_le (n m : nat) : (n <= m)%nat -> of_nat n <= of_nat m.
Proof. intros H. unfold of_nat. rewrite <- Zle_Qle. lia. Qed.

Lemma of_nat_lt (n m : nat) : (n < m)%nat -> of_nat n < of_nat m.
Proof. intros H. unfold of_nat. rewrite <- Zlt_Qlt. lia. Qed.

(** The values of the score formula.  The score of a game won in the ideal
    number of moves is 100, one extra move gives 95, the score is never negative,
    and it is at most 100 when the move count is at least the ideal one;
    there is no upper clamp, so a move count below the ideal one gives a
    score above 100. *)
Theorem efficiency_values_and_bounds (idealMoves mult moveCount : nat) :
  (0 < mult)%nat ->
  let deckLength := (idealMoves * mult)%nat in
  efficiency idealMoves deckLength mult == 100
  /\ efficiency (idealMoves + 1) deckLength mult == 95
  /\ 0 <= efficiency moveCount deckLength mult
  /\ ((idealMoves <= moveCount)%nat -> efficiency moveCount deckLength mult <= 100)
  /\ ((moveCount < idealMoves)%nat -> 100 < efficiency moveCount deckLength mult).
Proof.
  intros Hm deckLength. unfold deckLength.
  rewrite !efficiency_ideal by done.
  split; [|split; [|split; [|split]]].
  - rewrite Q.max_r; [ring|lra].
  - assert (E : of_nat (idealMoves + 1) == of_nat idealMoves + 1).
    { unfold of_nat. rewrite Nat2Z.inj_add, inject_Z_plus. reflexivity. }
    rewrite E. rewrite Q.max_r; [ring|lra].
  - apply Q.le_max_l.
  - intros Hle. apply of_nat_le in Hle.
    apply Q.max_lub; [done|]. lra.
  - intros Hlt. apply of_nat_lt in Hlt.
    eapply Qlt_le_trans; [|apply Q.le_max_r]. lra.
Qed.

Lemma efficiency_values_and_bounds_witness :
  efficiency 8 (8 * 2) 2 == 100
  /\ efficiency (8 + 1) (8 * 2) 2 == 95
  /\ 0 <= efficiency 30 (8 * 2) 2
  /\ ((8 <= 30)%nat -> efficiency 30 (8 * 2) 2 <= 100)
  /\ ((30 < 8)%nat -> 100 < efficiency 30 (8 * 2) 2).
Proof.
  apply (efficiency_values_and_bounds 8 2 30). lia.
Defined.

(** With no move counted for a deck of 16 cards in pairs the formula gives
    140. *)
Lemma efficiency_exceeds_100 :
  efficiency 0 16 2 == 140 /\ ~ (efficiency 0 16 2 <= 100).
Proof.
  split; [reflexivity|]. intros H. vm_compute in H. by apply H.
Qed.

Local Close Scope Q_scope.

(** ** The session *)

(** A duplicate-free list of [n] positions of a deck of [n] cards holds
    every position. *)
Lemma all_positions_listed (l : list Z) (n : nat) :
  NoDup l ->
  (forall i, i ∈ l -> (0 <= i < Z.of_nat n)%Z) ->
  length l = n ->
  forall i, (0 <= i < Z.of_nat n)%Z -> i ∈ l.
Proof.
  intros Hnd Hrange Hlen i Hi.
  assert (Hsub : l ⊆+ seqZ 0 (Z.of_nat n)).
  { apply NoDup_submseteq; [done|].
    intros x Hx. apply elem_of_seqZ. specialize (Hrange x Hx). lia. }
  apply submseteq_length_Permutation in Hsub.
  - rewrite Hsub. apply elem_of_seqZ. lia.
  - rewrite length_seqZ. lia.
Qed.

Lemma new_game_inv (s0 : State) : new_game s0 -> session_inv s0.
Proof.
  intros (now & s & r & Hsize & Hne & Hnone & ->). unfold resetGame.
  pose proof (startNewGame_resets now (gridSize s) (difficulty s) s r Hne)
    as (Hf & Hma & Hd & Hmv & Hdiff & Hto & _).
  pose proof (startNewGame_cards now (gridSize s) (difficulty s) s r Hne) as Hdeck.
  pose proof (difficultyMultiplier_bounds (difficulty s)) as Hm.
  set (s' := (startNewGame now (gridSize s) (difficulty s) s r).1) in *.
  split; rewrite ?Hf, ?Hma, ?Hdiff, ?Hto, ?Hnone, ?Hmv, ?Hd.
  - constructor.
  - intros i Hi. by apply elem_of_nil in Hi.
  - simpl. apply Nat.Div0.mod_0_l.
  - rewrite Hdeck, duplicate_each_length, length_take, shuffleArray_length.
    assert (1 <= gridSize s * gridSize s / difficultyMultiplier (difficulty s)).
    { apply Nat.div_le_lower_bound; nia. }
    assert (1 <= length (emojiList s)).
    { destruct (emojiList s); [done|simpl; lia]. }
    nia.
  - simpl. lia.
  - split; [done|simpl; lia].
Qed.

Lemma flipCard_inv (i : Z) (s : State) :
  in_deck (cards s) i -> session_inv s -> session_inv (flipCard i s).
Proof.
  intros Hi Hinv.
  destruct (accepted i s) eqn:Hacc; [|by rewrite flipCard_rejected].
  pose proof Hacc as (Hd & Hnf & Hnm)%accepted_true.
  destruct Hinv as [Hnd Hrange Hgroups Hdeck Hmoves Hpend].
  destruct (timeouts s) as [|c [|c' rest]] eqn:Hto; [|destruct Hpend; congruence|done].
  destruct Hpend as [_ Hlt].
  assert (Hnd' : NoDup ((flipped s ++ [i]) ++ matched s)).
  { rewrite <- app_assoc. simpl.
    rewrite <- Permutation_middle. constructor; [|done].
    rewrite elem_of_app. tauto. }
  assert (Hrange' : forall j, j ∈ (flipped s ++ [i]) ++ matched s -> in_deck (cards s) j).
  { intros j Hj. rewrite <- app_assoc in Hj. simpl in Hj.
    rewrite <- Permutation_middle in Hj.
    apply elem_of_cons in Hj as [->|Hj]; [done|by apply Hrange]. }
  rewrite flipCard_accepted by done.
  destruct (decide (length (flipped s) = difficultyMultiplier (difficulty s) - 1))
    as [Hlast|Hmore].
  - split; simpl; rewrite ?Hto; simpl; try done.
    + simpl in Hmoves. lia.
    + rewrite length_app. simpl. repeat split. lia.
  - split; simpl; rewrite ?Hto; simpl; try done.
    split; [done|]. rewrite length_app. simpl. lia.
Qed.

Lemma run_timeout_inv (s : State) :
  timeouts s <> [] -> session_inv s -> session_inv (run_timeout s).
Proof.
  intros Hsome Hinv.
  destruct Hinv as [Hnd Hrange Hgroups Hdeck Hmoves Hpend].
  pose proof (difficultyMultiplier_bounds (difficulty s)) as Hm.
  unfold run_timeout.
  destruct (timeouts s) as [|c [|c' rest]] eqn:Hto; [done| |done].
  destruct Hpend as (Hd & Hg & Hc & Hlen).
  pose proof (timeout_callback_outcome c (setTimeouts [] s))
    as (Hf' & Hd' & Hc' & Hdiff' & Hto' & Hyes & Hno).
  pose proof (timeout_callback_moves c (setTimeouts [] s)) as Hmv'.
  remember (timeout_callback c (setTimeouts [] s)) as s' eqn:Hs' in *.
  clear Hs'. simpl in Hc', Hdiff', Hto', Hyes, Hno, Hmv'.
  assert (Hcases : matched s' = matched s ++ flipped s \/ matched s' = matched s).
  { destruct (all_match (map (card_at (t_cards c)) (group_of c))) eqn:Ha.
    - left. rewrite <- Hg. apply Hyes. by apply all_match_same_tokens.
    - right. apply Hno. intros Hs. apply all_match_same_tokens in Hs. congruence. }
  split; rewrite ?Hf', ?Hd', ?Hc', ?Hdiff', ?Hto', ?Hmv'; simpl.
  - destruct Hcases as [-> | ->].
    + by rewrite (Permutation_app_comm (matched s)).
    + by apply NoDup_app in Hnd as (_ & _ & Hnd).
  - intros i Hi. apply Hrange. destruct Hcases as [E|E]; rewrite E in Hi.
    + by rewrite (Permutation_app_comm (matched s)) in Hi.
    + apply elem_of_app. by right.
  - destruct Hcases as [-> | ->]; [|done].
    rewrite length_app, Hlen.
    rewrite <- Nat.Div0.add_mod_idemp_l, Hgroups. simpl.
    apply Nat.Div0.mod_same.
  - done.
  - simpl in Hmoves. destruct Hcases as [-> | ->].
    + rewrite length_app, Hlen. lia.
    + lia.
  - split; [done|lia].
Qed.

Lemma session_step_inv (s s' : State) :
  session_step s s' -> session_inv s -> session_inv s'.
Proof.
  destruct 1 as [i s Hi|s Hsome].
  - apply flipCard_inv. unfold in_deck. lia.
  - by apply run_timeout_inv.
Qed.

Lemma session_inv_reachable (s0 s : State) :
  new_game s0 -> rtc session_step s0 s -> session_inv s.
Proof.
  intros Hnew Hsteps. apply new_game_inv in Hnew.
  induction Hsteps as [|x y z Hstep _ IH]; [done|].
  apply IH. by eapply session_step_inv.
Qed.

(** During a game the invariants at rest hold and [moves] does not go
    down. *)
Lemma session_inv_at_rest (s : State) : session_inv s -> at_rest_invariants s.
Proof.
  intros [Hnd _ Hgroups _ _ _]. split; [|done].
  intros _ i Hi. by apply NoDup_app in Hnd as (_ & Hdisj & _); apply Hdisj.
Qed.

Lemma session_step_moves (s s' : State) :
  session_step s s' -> moves s <= moves s'.
Proof.
  destruct 1 as [i s Hi|s Hsome].
  - rewrite flipCard_moves. destruct (_ && _); lia.
  - rewrite run_timeout_moves. lia.
Qed.




(** X17. During a game started with no match check of an earlier game pending,
    the invariants at rest hold in every state and no step lowers
    [moves]. *)
Lemma session_keeps_at_rest_invariants (s0 s s' : State) :
  new_game s0 ->
  rtc session_step s0 s ->
  at_rest_invariants s
  /\ (session_step s s' -> at_rest_invariants s' /\ moves s <= moves s').
Proof.
  intros Hnew Hsteps.
  pose proof (session_inv_reachable s0 s Hnew Hsteps) as Hinv.
  split; [by apply session_inv_at_rest|].
  intros Hstep. split; [|by apply session_step_moves].
  apply session_inv_at_rest. by eapply session_step_inv.
Qed.

(** C9 fails on the code.  [startNewGame] does not cancel the pending
    match check.  In the 4x4 game of pairs the player flips the pair at 0
    and 1 and selects "medium" before the check runs: the new game of
    triples starts with the invariants at rest, then the check of the old
    game runs in it and leaves two matched indices where the group size is
    three. *)
Theorem stale_match_check_breaks_groups :
  at_rest_invariants demo_game
  /\ at_rest_invariants (flipCard 0 demo_game)
  /\ at_rest_invariants pair_pending
  /\ at_rest_invariants switched_to_triples
  /\ timeouts switched_to_triples <> []
  /\ disabled after_stale_check = false
  /\ matched after_stale_check = [0%Z; 1%Z]
  /\ difficultyMultiplier (difficulty after_stale_check) = 3
  /\ ~ at_rest_invariants after_stale_check.
Proof.
  split; [split; [intros _ i Hi; by apply elem_of_nil in Hi|reflexivity]|].
  split; [split; [intros _ i _; apply not_elem_of_nil|reflexivity]|].
  split; [split; [discriminate|reflexivity]|].
  split; [split; [intros _ i Hi; by apply elem_of_nil in Hi|reflexivity]|].
  split; [discriminate|].
  split; [reflexivity|]. split; [reflexivity|]. split; [reflexivity|].
  intros [_ Hmod]. vm_compute in Hmod. discriminate.
Qed.

(** X16. The score set when such a game is won: every matched group took a
    move, so the move count is at least the ideal one and the score lies
    between 0 and 100. *)
Lemma session_score_in_range (s0 s : State) :
  new_game s0 ->
  rtc session_step s0 s ->
  allMatched s = true ->
  (0 <= score (score_effect s) <= 100)%Q.
Proof.
  intros Hnew Hsteps Hall.
  pose proof (session_inv_reachable s0 s Hnew Hsteps) as [_ _ _ _ Hmoves _].
  pose proof (difficultyMultiplier_bounds (difficulty s)) as Hm.
  unfold score_effect. rewrite Hall. simpl.
  unfold allMatched in Hall.
  apply andb_true_iff in Hall as [Hlen%bool_decide_eq_true _].
  unfold efficiency. split; [apply Q.le_max_l|].
  apply Q.max_lub; [done|].
  assert (Hideal : (of_nat (length (cards s))
                    / of_nat (difficultyMultiplier (difficulty s))
                    <= of_nat (moves s))%Q).
  { apply Qle_shift_div_r.
    - change 0%Q with (of_nat 0). apply of_nat_lt. lia.
    - unfold of_nat. rewrite <- inject_Z_mult, <- Zle_Qle. nia. }
  lra.
Qed.

(* ===================================================================== *)
(** * Further properties *)
(* ===================================================================== *)

(** ** shuffleArray: how the draws decide the order *)

Lemma attach_keys_rest (arr : list string) (r : Rng) :
  (attach_keys arr r).2 = fun n => r (length arr + n).
Proof.
  revert r. induction arr as [|v arr IH]; intros r; simpl; [done|].
  specialize (IH (fun n => r (S n))).
  destruct (attach_keys arr (fun n => r (S n))) as [tagged r2]. simpl in *.
  by rewrite IH.
Qed.

Lemma attach_keys_ext (arr : list string) (r r' : Rng) :
  (forall i, i < length arr -> r i = r' i) ->
  (attach_keys arr r).1 = (attach_keys arr r').1.
Proof.
  revert r r'. induction arr as [|v arr IH]; intros r r' Hagree; simpl; [done|].
  specialize (IH (fun n => r (S n)) (fun n => r' (S n))).
  destruct (attach_keys arr (fun n => r (S n))) as [tagged r2].
  destruct (attach_keys arr (fun n => r' (S n))) as [tagged' r2'].
  simpl in *. rewrite (Hagree 0) by lia. f_equal.
  apply IH. intros i Hi. apply Hagree. lia.
Qed.

Lemma attach_keys_sorts (arr : list string) (r : Rng) :
  map sort (attach_keys arr r).1 = map r (seq 0 (length arr)).
Proof.
  revert r. induction arr as [|v arr IH]; intros r; simpl; [done|].
  specialize (IH (fun n => r (S n))).
  destruct (attach_keys arr (fun n => r (S n))) as [tagged r2]. simpl in *.
  rewrite IH. f_equal. by rewrite <- seq_shift, map_map.
Qed.

(** X1. [shuffleArray] draws exactly one number per element: the
    generator it leaves behind is the given one advanced by the length of
    the array, and two generators that agree on that many draws give the
    same result. *)
Theorem shuffleArray_draws (arr : list string) (r r' : Rng) :
  (forall i, i < length arr -> r i = r' i) ->
  (shuffleArray arr r).1 = (shuffleArray arr r').1
  /\ (shuffleArray arr r).2 = (fun n => r (length arr + n)).
Proof.
  intros Hagree. split.
  - rewrite !shuffleArray_value. by rewrite (attach_keys_ext arr r r').
  - unfold shuffleArray.
    pose proof (attach_keys_rest arr r) as Hrest.
    by destruct (attach_keys arr r).
Qed.

Lemma shuffleArray_draws_witness :
  (shuffleArray demo_pool mixed_rng).1
  = (shuffleArray demo_pool (rng_of [3; 10; 6; 2; 9; 5; 1; 8]%Z)).1
  /\ (shuffleArray demo_pool mixed_rng).2
     = (fun n => mixed_rng (length demo_pool + n)).
Proof.
  apply (shuffleArray_draws demo_pool mixed_rng (rng_of [3; 10; 6; 2; 9; 5; 1; 8]%Z)).
  intros i Hi. simpl in Hi.
  do 8 (destruct i as [|i]; [reflexivity|]). lia.
Defined.

Lemma place_front (cmp : Keyed -> Keyed -> Z) (x : Keyed) (l : list Keyed) :
  (forall y, head l = Some y -> (cmp x y <= 0)%Z) ->
  place cmp x l = x :: l.
Proof.
  destruct l as [|y l]; [done|]. intros H. simpl.
  specialize (H y eq_refl). destruct (Z.ltb_spec 0 (cmp x y)); [lia|done].
Qed.

Lemma place_back (cmp : Keyed -> Keyed -> Z) (x : Keyed) (l : list Keyed) :
  (forall y, y ∈ l -> (0 < cmp x y)%Z) ->
  place cmp x l = l ++ [x].
Proof.
  induction l as [|y l IH]; intros H; simpl; [done|].
  destruct (Z.ltb_spec 0 (cmp x y)) as [_|Hle].
  - rewrite IH; [done|]. intros z Hz. apply H. by right.
  - assert (0 < cmp x y)%Z by (apply H; by left). lia.
Qed.

Lemma array_sort_sorted_id (l : list Keyed) :
  StronglySorted (fun a b => (sort a <= sort b)%Z) l ->
  array_sort by_sort_key l = l.
Proof.
  unfold array_sort. induction 1 as [|x l Hs IH Hall]; simpl; [done|].
  rewrite IH. apply place_front.
  intros y Hy. destruct l as [|z l]; [done|]. simpl in Hy. simplify_eq.
  apply Forall_cons in Hall as [Hxy _]. unfold by_sort_key. lia.
Qed.

Lemma array_sort_decreasing_reverse (l : list Keyed) :
  StronglySorted (fun a b => (sort b < sort a)%Z) l ->
  array_sort by_sort_key l = reverse l.
Proof.
  unfold array_sort. induction 1 as [|x l Hs IH Hall]; simpl; [done|].
  rewrite IH, reverse_cons. apply place_back.
  intros y Hy. rewrite elem_of_reverse in Hy.
  rewrite Forall_forall in Hall. specialize (Hall y Hy).
  unfold by_sort_key. lia.
Qed.

Lemma sorted_by_draws (R : Z -> Z -> Prop) (arr : list string) (r : Rng) :
  (forall i j, i < j < length arr -> R (r i) (r j)) ->
  StronglySorted (fun a b => R (sort a) (sort b)) (attach_keys arr r).1.
Proof.
  revert r. induction arr as [|v arr IH]; intros r Hr; simpl.
  { constructor. }
  specialize (IH (fun n => r (S n))).
  pose proof (attach_keys_sorts arr (fun n => r (S n))) as Hkeys.
  destruct (attach_keys arr (fun n => r (S n))) as [tagged r2]. simpl in *.
  constructor.
  - apply IH. intros i j Hij. apply Hr. lia.
  - apply Forall_forall. intros y Hy. simpl.
    assert (Hin : sort y ∈ map sort tagged) by (by apply list_elem_of_fmap_2).
    rewrite Hkeys in Hin. apply list_elem_of_fmap in Hin as (j & -> & Hj).
    apply elem_of_seq in Hj. apply (Hr 0 (S j)). lia.
Qed.

(** X2. The order of the draws decides the result, and ties keep the
    input order: when the draws for the array never go down the array
    comes back in its input order (in particular when they are all
    equal), and when they go strictly down it comes back reversed. *)
Theorem shuffleArray_follows_draws (arr : list string) (r : Rng) :
  ((forall i j, i < j < length arr -> (r i <= r j)%Z) ->
   (shuffleArray arr r).1 = arr)
  /\ ((forall i j, i < j < length arr -> (r j < r i)%Z) ->
      (shuffleArray arr r).1 = reverse arr).
Proof.
  split; intros Hr; rewrite shuffleArray_value.
  - rewrite array_sort_sorted_id; [apply attach_keys_values|].
    by apply (sorted_by_draws Z.le).
  - rewrite array_sort_decreasing_reverse.
    + rewrite <- (attach_keys_values arr r) at 2.
      apply (fmap_reverse value).
    + by apply (sorted_by_draws (fun a b => (b < a)%Z)).
Qed.

Lemma shuffleArray_follows_draws_witness :
  (shuffleArray demo_pool flat_rng).1 = demo_pool
  /\ (shuffleArray demo_pool (rng_of [8; 7; 6; 5; 4; 3; 2; 1]%Z)).1
     = reverse demo_pool.
Proof.
  split.
  - apply (shuffleArray_follows_draws demo_pool flat_rng). intros i j _. done.
  - apply (shuffleArray_follows_draws demo_pool (rng_of [8; 7; 6; 5; 4; 3; 2; 1]%Z)).
    intros i j Hij. simpl in Hij.
    do 8 (destruct i as [|i];
          [do 8 (destruct j as [|j]; [cbv [rng_of nth]; lia|]); lia|]).
    lia.
Defined.

(** ** shuffleArray: every order can come out *)

Lemma place_shift (x : Keyed) (l : list Keyed) :
  place by_sort_key (shift_key x) (map shift_key l)
  = map shift_key (place by_sort_key x l).
Proof.
  induction l as [|y l IH]; simpl; [done|].
  replace (by_sort_key (shift_key x) (shift_key y)) with (by_sort_key x y)
    by (unfold by_sort_key; simpl; lia).
  destruct (0 <? by_sort_key x y)%Z; simpl; [by rewrite IH|done].
Qed.

Lemma array_sort_shift (l : list Keyed) :
  array_sort by_sort_key (map shift_key l)
  = map shift_key (array_sort by_sort_key l).
Proof.
  unfold array_sort. induction l as [|x l IH]; simpl; [done|].
  by rewrite IH, place_shift.
Qed.

(** An element whose key is below all the others comes out first,
    wherever it stands in the input. *)
Lemma array_sort_least (z : Keyed) (l1 l2 : list Keyed) :
  (forall y, y ∈ l1 ++ l2 -> (sort z < sort y)%Z) ->
  array_sort by_sort_key (l1 ++ z :: l2)
  = z :: array_sort by_sort_key (l1 ++ l2).
Proof.
  induction l1 as [|a l1 IH]; intros Hleast; simpl.
  - unfold array_sort. simpl. apply place_front.
    intros y Hy. apply head_Some_elem_of in Hy.
    change (foldr (place by_sort_key) [] l2)
      with (array_sort by_sort_key l2) in Hy.
    rewrite (array_sort_perm by_sort_key) in Hy.
    specialize (Hleast y Hy). unfold by_sort_key. lia.
  - unfold array_sort in *. simpl. rewrite IH.
    + simpl. assert (sort z < sort a)%Z by (apply Hleast; by left).
      unfold by_sort_key at 1.
      destruct (Z.ltb_spec 0 (sort a - sort z)); [done|lia].
    + intros y Hy. apply Hleast. by right.
Qed.

Lemma ranked_cons (y : string) (p : list string) :
  ranked (y :: p) = {| value := y; sort := 0 |} :: map shift_key (ranked p).
Proof.
  unfold ranked. rewrite imap_cons. f_equal.
  change (map shift_key ?l) with (shift_key <$> l). rewrite fmap_imap.
  apply imap_ext. intros i v _. unfold shift_key. simpl. f_equal. lia.
Qed.

Lemma ranked_values (p : list string) : map value (ranked p) = p.
Proof.
  induction p as [|y p IH]; [done|].
  rewrite ranked_cons. simpl. f_equal. rewrite map_map.
  etrans; [|exact IH]. apply map_ext. by intros [].
Qed.

Lemma ranked_sorts (p : list string) :
  map sort (ranked p) = map Z.of_nat (seq 0 (length p)).
Proof.
  unfold ranked. change (map sort ?l) with (sort <$> l). rewrite fmap_imap.
  simpl. apply (imap_seq_0 p Z.of_nat).
Qed.

Lemma ranked_sort_nonneg (p : list string) (z : Keyed) :
  z ∈ ranked p -> (0 <= sort z)%Z.
Proof.
  intros Hz. assert (Hin : sort z ∈ map sort (ranked p)).
  { by apply list_elem_of_fmap_2. }
  rewrite ranked_sorts in Hin. apply list_elem_of_fmap in Hin as (i & -> & _). lia.
Qed.

Lemma keys_for_order (p arr : list string) :
  arr ≡ₚ p ->
  exists L, map value L = arr /\ array_sort by_sort_key L = ranked p.
Proof.
  revert arr. induction p as [|y p IH]; intros arr Hperm.
  - apply Permutation_nil_r in Hperm as ->. by exists [].
  - apply Permutation_cons_inv_r in Hperm as (a1 & a2 & -> & Hperm).
    destruct (IH (a1 ++ a2)) as (L' & Hval & Hsort); [done|].
    apply fmap_app_inv in Hval as (L1 & L2 & -> & -> & ->).
    exists (map shift_key L1 ++ {| value := y; sort := 0 |} :: map shift_key L2).
    split.
    + rewrite map_app. simpl. rewrite !map_map. done.
    + rewrite array_sort_least.
      * rewrite <- map_app, array_sort_shift, Hsort. by rewrite ranked_cons.
      * intros z Hz. rewrite <- map_app in Hz.
        apply list_elem_of_fmap in Hz as (z' & -> & Hz').
        rewrite <- (array_sort_perm by_sort_key), Hsort in Hz'.
        apply ranked_sort_nonneg in Hz'. simpl. lia.
Qed.

Lemma attach_keys_of_keys (L : list Keyed) :
  (attach_keys (map value L) (rng_of (map sort L))).1 = L.
Proof.
  induction L as [|[v k] L IH]; simpl; [done|].
  change (fun n => rng_of (k :: map sort L) (S n)) with (rng_of (map sort L)).
  destruct (attach_keys (map value L) (rng_of (map sort L))) as [tagged r2].
  simpl in *. by rewrite IH.
Qed.

(** X3. Every reordering of the array can come out of [shuffleArray]: for
    each permutation of the input there are draws, one rank 0 .. n-1 per
    element, for which the result is that permutation. *)
Theorem shuffleArray_reaches_every_order (arr p : list string) :
  arr ≡ₚ p ->
  exists ks,
    ks ≡ₚ map Z.of_nat (seq 0 (length arr))
    /\ (shuffleArray arr (rng_of ks)).1 = p.
Proof.
  intros Hperm.
  destruct (keys_for_order p arr Hperm) as (L & Hval & Hsort).
  exists (map sort L). split.
  - rewrite <- (array_sort_perm by_sort_key L), Hsort, ranked_sorts.
    by rewrite Hperm.
  - rewrite shuffleArray_value, <- Hval, attach_keys_of_keys, Hsort.
    apply ranked_values.
Qed.

Lemma shuffleArray_reaches_every_order_witness :
  exists ks,
    ks ≡ₚ map Z.of_nat (seq 0 (length demo_pool))
    /\ (shuffleArray demo_pool (rng_of ks)).1 = demo_reordered.
Proof.
  apply (shuffleArray_reaches_every_order demo_pool demo_reordered).
  apply (bool_decide_unpack _). vm_compute. reflexivity.
Defined.

(** ** startNewGame on any list of emojis *)

Lemma occurrences_take_le (t : string) (n : nat) (l : list string) :
  occurrences t (take n l) <= occurrences t l.
Proof.
  rewrite <- (take_drop n l) at 2. rewrite occurrences_app. lia.
Qed.

Lemma occurrences_perm (t : string) (l k : list string) :
  l ≡ₚ k -> occurrences t l = occurrences t k.
Proof. intros H. unfold occurrences. by rewrite H. Qed.

(** X4. Whatever the non-empty list of emojis is, duplicates included,
    the deck of [startNewGame] has min(floor(size^2 / mult), list length)
    groups of [mult] cards, never more cards than the grid has cells, only
    tokens of the list, and every token a multiple of [mult] times: [mult]
    times the number of its copies among the selected emojis, which is at
    most the number of its copies in the list. *)
Theorem startNewGame_deck_of_any_list
    (now : Z) (size : nat) (diff : Difficulty) (s : State) (r : Rng) :
  emojiList s <> [] ->
  let mult := difficultyMultiplier diff in
  let deck := cards (startNewGame now size diff s r).1 in
  length deck = (size * size / mult) `min` length (emojiList s) * mult
  /\ length deck <= size * size
  /\ (forall t, t ∈ deck -> t ∈ emojiList s)
  /\ (forall t, exists k,
        occurrences t deck = mult * k /\ k <= occurrences t (emojiList s)).
Proof.
  intros Hne mult deck.
  pose proof (difficultyMultiplier_bounds diff) as Hm. fold mult in Hm.
  pose proof (startNewGame_cards now size diff s r Hne) as Hdeck.
  fold mult deck in Hdeck.
  set (selected := take (size * size / mult) (shuffleArray (emojiList s) r).1) in *.
  assert (Hlen : length deck = (size * size / mult) `min` length (emojiList s) * mult).
  { rewrite Hdeck, duplicate_each_length. unfold selected.
    by rewrite length_take, shuffleArray_length. }
  split; [exact Hlen|]. split; [|split].
  - rewrite Hlen. pose proof (Nat.div_mod_eq (size * size) mult). nia.
  - intros t Hin. rewrite Hdeck in Hin. apply elem_of_duplicate_each in Hin.
    unfold selected in Hin. apply elem_of_take in Hin as (i & Hi & _).
    apply list_elem_of_lookup_2 in Hi. by rewrite shuffleArray_perm in Hi.
  - intros t. exists (occurrences t selected). split.
    + rewrite (occurrences_perm t deck _ Hdeck).
      apply occurrences_duplicate_each.
    + unfold selected. etrans; [apply occurrences_take_le|].
      by rewrite (occurrences_perm t _ _ (shuffleArray_perm (emojiList s) r)).
Qed.

Lemma startNewGame_deck_of_any_list_witness :
  let deck := cards (startNewGame 0 4 easy repeated_tokens flat_rng).1 in
  length deck = (4 * 4 / 2) `min` length (emojiList repeated_tokens) * 2
  /\ length deck <= 4 * 4
  /\ (forall t, t ∈ deck -> t ∈ emojiList repeated_tokens)
  /\ (forall t, exists k,
        occurrences t deck = 2 * k
        /\ k <= occurrences t (emojiList repeated_tokens)).
Proof.
  apply (startNewGame_deck_of_any_list 0 4 easy repeated_tokens flat_rng).
  discriminate.
Defined.

(** X5. A grid size and a difficulty selected before the list of emojis
    has arrived start no game and draw no random number, but they are
    kept: when a non-empty list arrives the game starts on the selected
    grid with the selected difficulty, with nothing flipped or matched
    and no move counted. *)
Theorem selection_before_load_is_kept
    (now0 now1 now2 : Z) (n : nat) (d : Difficulty) (l : list string) (r : Rng) :
  l <> [] ->
  selectGridSize now0 n initial r = (setGridSize n initial, r)
  /\ selectDifficulty now1 d (setGridSize n initial) r
     = (setDifficulty d (setGridSize n initial), r)
  /\ let s := (configured_then_loaded now0 now1 now2 n d l r).1 in
     gridSize s = n /\ difficulty s = d /\ emojiList s = l
     /\ cards s ≡ₚ duplicate_each (difficultyMultiplier d)
                     (take (n * n / difficultyMultiplier d) (shuffleArray l r).1)
     /\ flipped s = [] /\ matched s = [] /\ disabled s = false /\ moves s = 0.
Proof.
  intros Hne. split; [reflexivity|]. split; [reflexivity|].
  set (s2 := setEmojiList l (setDifficulty d (setGridSize n initial))).
  assert (Hload : configured_then_loaded now0 now1 now2 n d l r
                  = startNewGame now2 n d s2 r).
  { transitivity (emojisLoaded now2 l (setDifficulty d (setGridSize n initial)) r);
      [reflexivity|].
    unfold emojisLoaded, restart_effect. fold s2.
    rewrite decide_True; [done|]. simpl. destruct l; [done|simpl; lia]. }
  rewrite Hload.
  pose proof (startNewGame_resets now2 n d s2 r Hne)
    as (Hf & Hma & Hd & Hmv & Hdiff & _ & Hgrid & Hemo).
  pose proof (startNewGame_cards now2 n d s2 r Hne) as Hdeck.
  simpl. rewrite Hgrid, Hdiff, Hemo, Hf, Hma, Hd, Hmv. by repeat split.
Qed.

Lemma selection_before_load_is_kept_witness :
  selectGridSize 0 5 initial mixed_rng = (setGridSize 5 initial, mixed_rng)
  /\ selectDifficulty 1 hard (setGridSize 5 initial) mixed_rng
     = (setDifficulty hard (setGridSize 5 initial), mixed_rng)
  /\ let s := (configured_then_loaded 0 1 2 5 hard demo_pool mixed_rng).1 in
     gridSize s = 5 /\ difficulty s = hard /\ emojiList s = demo_pool
     /\ cards s ≡ₚ duplicate_each (difficultyMultiplier hard)
                     (take (5 * 5 / difficultyMultiplier hard)
                           (shuffleArray demo_pool mixed_rng).1)
     /\ flipped s = [] /\ matched s = [] /\ disabled s = false /\ moves s = 0.
Proof.
  apply (selection_before_load_is_kept 0 1 2 5 hard demo_pool mixed_rng).
  discriminate.
Defined.

(** ** The session: what every game keeps *)

(** The 2x2 demo game is a new game, and it can be played to its end. *)
Lemma tiny_game_is_new : new_game tiny_game.
Proof.
  exists 0%Z, tiny_loaded, flat_rng.
  split; [vm_compute; lia|]. split; [discriminate|]. split; reflexivity.
Defined.

Lemma tiny_game_played : rtc session_step tiny_game tiny_won.
Proof.
  eapply rtc_l; [apply (step_click 0 tiny_game); vm_compute; lia|].
  eapply rtc_l; [apply (step_click 1 (flipCard (Z.of_nat 0) tiny_game));
                 vm_compute; lia|].
  eapply rtc_l; [apply (step_timeout
                   (flipCard (Z.of_nat 1) (flipCard (Z.of_nat 0) tiny_game)));
                 discriminate|].
  eapply rtc_l; [apply (step_click 2 tiny_half); vm_compute; lia|].
  eapply rtc_l; [apply (step_click 3 (flipCard (Z.of_nat 2) tiny_half));
                 vm_compute; lia|].
  eapply rtc_l; [apply (step_timeout
                   (flipCard (Z.of_nat 3) (flipCard (Z.of_nat 2) tiny_half)));
                 discriminate|].
  apply rtc_refl.
Defined.

(** X6. During a game at most one match check is pending, clicks are
    disabled exactly while it is, fewer cards than a group are flipped
    while clicks are enabled and exactly a group while they are not; no
    index is flipped or matched twice, and every flipped or matched index
    is a position of the deck. *)
Theorem session_one_check_at_a_time (s0 s : State) :
  new_game s0 ->
  rtc session_step s0 s ->
  let mult := difficultyMultiplier (difficulty s) in
  length (timeouts s) <= 1
  /\ (disabled s = true <-> timeouts s <> [])
  /\ (disabled s = false -> length (flipped s) < mult)
  /\ (disabled s = true -> length (flipped s) = mult)
  /\ NoDup (flipped s) /\ NoDup (matched s)
  /\ (forall i, i ∈ flipped s ++ matched s -> in_deck (cards s) i).
Proof.
  intros Hnew Hsteps mult.
  pose proof (session_inv_reachable s0 s Hnew Hsteps)
    as [Hnd Hrange _ _ _ Hpend].
  apply NoDup_app in Hnd as (Hndf & _ & Hndm). fold mult in Hpend.
  destruct (timeouts s) as [|c [|c' rest]]; [| |done].
  - destruct Hpend as [Hd Hlt]. simpl. rewrite Hd.
    split_and!; try done; try lia.
  - destruct Hpend as (Hd & _ & _ & Hlen). simpl. rewrite Hd.
    split_and!; try done; try lia.
Qed.

Lemma session_one_check_at_a_time_witness :
  let mult := difficultyMultiplier (difficulty tiny_won) in
  length (timeouts tiny_won) <= 1
  /\ (disabled tiny_won = true <-> timeouts tiny_won <> [])
  /\ (disabled tiny_won = false -> length (flipped tiny_won) < mult)
  /\ (disabled tiny_won = true -> length (flipped tiny_won) = mult)
  /\ NoDup (flipped tiny_won) /\ NoDup (matched tiny_won)
  /\ (forall i, i ∈ flipped tiny_won ++ matched tiny_won ->
                in_deck (cards tiny_won) i).
Proof.
  apply (session_one_check_at_a_time tiny_game tiny_won).
  - exact tiny_game_is_new.
  - exact tiny_game_played.
Defined.

Lemma flipCard_frame (i : Z) (s : State) :
  cards (flipCard i s) = cards s
  /\ difficulty (flipCard i s) = difficulty s
  /\ gridSize (flipCard i s) = gridSize s
  /\ emojiList (flipCard i s) = emojiList s
  /\ matched (flipCard i s) = matched s.
Proof.
  destruct (accepted i s) eqn:Hacc.
  - rewrite flipCard_accepted by done. by destruct (decide _).
  - by rewrite flipCard_rejected.
Qed.

Lemma run_timeout_frame (s : State) :
  cards (run_timeout s) = cards s
  /\ difficulty (run_timeout s) = difficulty s
  /\ gridSize (run_timeout s) = gridSize s
  /\ emojiList (run_timeout s) = emojiList s
  /\ exists k, matched (run_timeout s) = matched s ++ k.
Proof.
  unfold run_timeout. destruct (timeouts s) as [|c rest].
  { repeat split. exists []. by rewrite app_nil_r. }
  unfold timeout_callback. destruct (all_match _); simpl; repeat split.
  - by eexists.
  - exists []. by rewrite app_nil_r.
Qed.

(** X7. Neither a click nor a match check changes the deck, the
    difficulty, the grid size or the list of emojis, un-matches a card or
    lowers the move count: after any number of them [matched] is the
    earlier [matched] with indices appended. *)
Theorem session_only_appends_matches (s0 s : State) :
  rtc session_step s0 s ->
  cards s = cards s0 /\ difficulty s = difficulty s0
  /\ gridSize s = gridSize s0 /\ emojiList s = emojiList s0
  /\ moves s0 <= moves s
  /\ exists k, matched s = matched s0 ++ k.
Proof.
  induction 1 as [s|s1 s2 s3 Hstep _ IH].
  { repeat split; try done. exists []. by rewrite app_nil_r. }
  destruct IH as (Hc & Hd & Hg & He & Hm & k & Hk).
  pose proof (session_step_moves _ _ Hstep) as Hmv.
  assert (Hframe : cards s2 = cards s1 /\ difficulty s2 = difficulty s1
                   /\ gridSize s2 = gridSize s1 /\ emojiList s2 = emojiList s1
                   /\ exists k', matched s2 = matched s1 ++ k').
  { destruct Hstep as [i s1 Hi|s1 Hsome].
    - pose proof (flipCard_frame (Z.of_nat i) s1) as (? & ? & ? & ? & Hma).
      repeat split; try done. exists []. by rewrite app_nil_r.
    - apply run_timeout_frame. }
  destruct Hframe as (Hc' & Hd' & Hg' & He' & k' & Hk').
  repeat split; try congruence; try lia.
  exists (k' ++ k). rewrite Hk, Hk'. by rewrite app_assoc.
Qed.

Lemma session_only_appends_matches_witness :
  cards tiny_won = cards tiny_game /\ difficulty tiny_won = difficulty tiny_game
  /\ gridSize tiny_won = gridSize tiny_game
  /\ emojiList tiny_won = emojiList tiny_game
  /\ moves tiny_game <= moves tiny_won
  /\ exists k, matched tiny_won = matched tiny_game ++ k.
Proof.
  apply (session_only_appends_matches tiny_game tiny_won).
  exact tiny_game_played.
Defined.

(** What the pending match check of a game does to [matched]: it appends
    the flipped group, whose cards are then identical, or nothing. *)
Lemma run_timeout_session_cases (s : State) :
  session_inv s ->
  timeouts s <> [] ->
  (matched (run_timeout s) = matched s ++ flipped s
   /\ same_tokens (cards s) (flipped s)
   /\ length (flipped s) = difficultyMultiplier (difficulty s))
  \/ (matched (run_timeout s) = matched s
      /\ ~ same_tokens (cards s) (flipped s)).
Proof.
  intros [_ _ _ _ _ Hpend] Hsome. unfold run_timeout.
  destruct (timeouts s) as [|c [|c' rest]]; [done| |done].
  destruct Hpend as (_ & Hg & Hc & Hlen).
  pose proof (timeout_callback_outcome c (setTimeouts [] s))
    as (_ & _ & _ & _ & _ & Hyes & Hno).
  remember (timeout_callback c (setTimeouts [] s)) as s' eqn:Hs' in *.
  clear Hs'. rewrite Hg, Hc in Hyes, Hno. simpl in Hyes, Hno.
  destruct (all_match (map (card_at (cards s)) (flipped s))) eqn:Ha.
  - left. apply all_match_same_tokens in Ha. by rewrite Hyes.
  - right. assert (Hn : ~ same_tokens (cards s) (flipped s)).
    { intros Hs. apply all_match_same_tokens in Hs. congruence. }
    by rewrite Hno.
Qed.

(** X8. In a game started while no match check of an earlier game is
    pending, and played through the rendered cards, the matched indices
    are made of whole groups of identical cards: every matched card belongs to a group of [mult]
    matched indices whose cards all show the same token. *)
Theorem session_matches_whole_groups (s0 s : State) :
  new_game s0 ->
  rtc session_step s0 s ->
  let mult := difficultyMultiplier (difficulty s) in
  whole_groups (cards s) mult (matched s)
  /\ forall i, i ∈ matched s ->
       exists g, i ∈ g /\ length g = mult /\ same_tokens (cards s) g
                 /\ forall j, j ∈ g -> j ∈ matched s.
Proof.
  intros Hnew Hsteps mult.
  assert (Hgroups : whole_groups (cards s) mult (matched s)).
  { unfold mult. clear mult. revert s Hsteps. apply rtc_ind_r.
    - destruct Hnew as (now & s & r & _ & Hne & _ & ->). unfold resetGame.
      pose proof (startNewGame_resets now (gridSize s) (difficulty s) s r Hne)
        as (_ & Hma & _).
      simpl in Hma. rewrite Hma. exists []. split; [done|constructor].
    - intros y z Hy Hstep (groups & Hcat & Hall).
      pose proof (session_inv_reachable s0 y Hnew Hy) as Hinv.
      destruct Hstep as [i y Hi|y Hsome].
      + pose proof (flipCard_frame (Z.of_nat i) y) as (-> & -> & _ & _ & ->).
        by exists groups.
      + pose proof (run_timeout_frame y) as (-> & -> & _).
        destruct (run_timeout_session_cases y Hinv Hsome)
          as [(-> & Hsame & Hlen)|[-> _]]; [|by exists groups].
        exists (groups ++ [flipped y]). split.
        * rewrite concat_app, Hcat. simpl. by rewrite app_nil_r.
        * apply Forall_app. split; [done|]. by repeat constructor. }
  split; [exact Hgroups|].
  destruct Hgroups as (groups & Hcat & Hall).
  intros i Hi. rewrite Hcat in Hi.
  apply list_elem_of_In, in_concat in Hi as (g & Hg & Hig).
  apply list_elem_of_In in Hg, Hig.
  rewrite Forall_forall in Hall. destruct (Hall g Hg) as [Hlen Hsame].
  exists g. split; [done|]. split; [done|]. split; [done|].
  intros j Hj. rewrite Hcat. apply list_elem_of_In, in_concat.
  exists g. by rewrite <- !list_elem_of_In.
Qed.

Lemma session_matches_whole_groups_witness :
  let mult := difficultyMultiplier (difficulty tiny_won) in
  whole_groups (cards tiny_won) mult (matched tiny_won)
  /\ forall i, i ∈ matched tiny_won ->
       exists g, i ∈ g /\ length g = mult /\ same_tokens (cards tiny_won) g
                 /\ forall j, j ∈ g -> j ∈ matched tiny_won.
Proof.
  apply (session_matches_whole_groups tiny_game tiny_won).
  - exact tiny_game_is_new.
  - exact tiny_game_played.
Defined.

(** X9. Every matched group has cost a move, and so has the check that is
    pending: in a game started while no match check of an earlier game is
    pending, and played through the rendered cards, [matched] is never
    longer than [mult] times the move count, and a game cannot be won in fewer than deck length / mult
    moves. *)
Theorem session_moves_cover_matches (s0 s : State) :
  new_game s0 ->
  rtc session_step s0 s ->
  let mult := difficultyMultiplier (difficulty s) in
  length (matched s) + mult * length (timeouts s) <= mult * moves s
  /\ (allMatched s = true -> length (cards s) / mult <= moves s).
Proof.
  intros Hnew Hsteps mult.
  pose proof (session_inv_reachable s0 s Hnew Hsteps) as [_ _ _ _ Hmoves _].
  pose proof (difficultyMultiplier_bounds (difficulty s)) as Hm.
  fold mult in Hmoves, Hm. split; [done|].
  unfold allMatched. rewrite andb_true_iff, !bool_decide_eq_true.
  intros [Hlen _]. rewrite <- Hlen.
  apply Nat.Div0.div_le_upper_bound. lia.
Qed.

Lemma session_moves_cover_matches_witness :
  let mult := difficultyMultiplier (difficulty tiny_won) in
  length (matched tiny_won) + mult * length (timeouts tiny_won)
  <= mult * moves tiny_won
  /\ (allMatched tiny_won = true -> length (cards tiny_won) / mult <= moves tiny_won).
Proof.
  apply (session_moves_cover_matches tiny_game tiny_won).
  - exact tiny_game_is_new.
  - exact tiny_game_played.
Defined.

(** ** A whole move *)

Lemma flip_all_partial (g : list Z) (s : State) :
  disabled s = false ->
  NoDup (flipped s ++ g) ->
  (forall i, i ∈ g -> i ∉ matched s) ->
  length (flipped s ++ g) < difficultyMultiplier (difficulty s) ->
  flip_all g s = setFlipped (flipped s ++ g) s.
Proof.
  revert s. induction g as [|i g IH]; intros s Hd Hnd Hnm Hlen.
  - rewrite app_nil_r. by destruct s.
  - assert (Hacc : accepted i s = true).
    { apply accepted_true. split; [done|]. split.
      - apply NoDup_app in Hnd as (_ & Hdisj & _). intros Hi.
        apply (Hdisj i Hi). by left.
      - apply Hnm. by left. }
    unfold flip_all. simpl. fold (flip_all g (flipCard i s)).
    rewrite flipCard_accepted by done.
    rewrite length_app in Hlen. simpl in Hlen.
    rewrite decide_False by lia.
    rewrite IH; simpl.
    + by rewrite <- app_assoc.
    + done.
    + by rewrite <- app_assoc.
    + intros j Hj. apply Hnm. by right.
    + rewrite <- app_assoc, length_app. simpl. lia.
Qed.

(** The clicks on a whole group: the last one schedules the check. *)
Lemma flip_all_completes (g1 : list Z) (last : Z) (s : State) :
  disabled s = false ->
  flipped s = [] ->
  NoDup (g1 ++ [last]) ->
  length (g1 ++ [last]) = difficultyMultiplier (difficulty s) ->
  (forall i, i ∈ g1 ++ [last] -> i ∉ matched s) ->
  flip_all (g1 ++ [last]) s
  = setTimeouts
      (timeouts s ++ [{| t_flipped := g1; t_index := last; t_cards := cards s |}])
      (setMoves (moves s + 1)
         (setDisabled true (setFlipped (g1 ++ [last]) s))).
Proof.
  intros Hd Hf Hnd Hlen Hnm.
  rewrite length_app in Hlen. simpl in Hlen.
  apply NoDup_app in Hnd as (Hnd1 & Hdisj & _).
  unfold flip_all. rewrite foldl_snoc. fold (flip_all g1 s).
  rewrite (flip_all_partial g1 s); rewrite ?Hf; simpl; try done; try lia.
  2: { intros i Hi. apply Hnm, elem_of_app. by left. }
  assert (Hacc : accepted last (setFlipped g1 s) = true).
  { apply accepted_true. simpl. split; [done|]. split.
    - intros Hi. apply (Hdisj last Hi). by left.
    - apply Hnm, elem_of_app. right. by left. }
  rewrite flipCard_accepted by done. simpl.
  by rewrite decide_True by lia.
Qed.

(** The move on a group of identical cards. *)
Lemma matching_group_move (g : list Z) (s : State) :
  disabled s = false ->
  flipped s = [] ->
  timeouts s = [] ->
  NoDup g ->
  length g = difficultyMultiplier (difficulty s) ->
  (forall i, i ∈ g -> i ∉ matched s) ->
  all_match (map (card_at (cards s)) g) = true ->
  run_timeout (flip_all g s)
  = setMatched (matched s ++ g) (setMoves (moves s + 1) s).
Proof.
  intros Hd Hf Hto Hnd Hlen Hnm Hsame.
  pose proof (difficultyMultiplier_bounds (difficulty s)) as Hm.
  destruct g as [|last g1 _] using rev_ind; [simpl in Hlen; lia|].
  rewrite flip_all_completes by done.
  unfold run_timeout. simpl. rewrite Hto. simpl.
  unfold timeout_callback. simpl. rewrite Hsame.
  destruct s; simpl in *; by subst.
Qed.

(** X10. A whole move.  With clicks enabled, nothing flipped and no check
    pending, clicking [mult] different unmatched cards and letting the
    match check run counts one move, leaves nothing flipped and clicks
    enabled, and appends the group to [matched] exactly when its cards
    are identical: a failed attempt changes nothing but the move count. *)
Theorem whole_move (g : list Z) (s : State) :
  disabled s = false ->
  flipped s = [] ->
  timeouts s = [] ->
  NoDup g ->
  length g = difficultyMultiplier (difficulty s) ->
  (forall i, i ∈ g -> i ∉ matched s) ->
  run_timeout (flip_all g s)
  = if all_match (map (card_at (cards s)) g)
    then setMatched (matched s ++ g) (setMoves (moves s + 1) s)
    else setMoves (moves s + 1) s.
Proof.
  intros Hd Hf Hto Hnd Hlen Hnm.
  pose proof (difficultyMultiplier_bounds (difficulty s)) as Hm.
  destruct g as [|last g1 _] using rev_ind; [simpl in Hlen; lia|].
  rewrite flip_all_completes by done.
  unfold run_timeout. simpl. rewrite Hto. simpl.
  unfold timeout_callback. simpl.
  destruct (all_match (map (card_at (cards s)) (g1 ++ [last])));
    destruct s; simpl in *; by subst.
Qed.

Lemma whole_move_witness :
  run_timeout (flip_all [0; 2]%Z tiny_game)
  = if all_match (map (card_at (cards tiny_game)) [0; 2]%Z)
    then setMatched (matched tiny_game ++ [0; 2]%Z)
           (setMoves (moves tiny_game + 1) tiny_game)
    else setMoves (moves tiny_game + 1) tiny_game.
Proof.
  apply (whole_move [0; 2]%Z tiny_game); try reflexivity.
  - apply (bool_decide_unpack _). vm_compute. reflexivity.
  - intros i _. vm_compute. apply not_elem_of_nil.
Defined.

(** ** Every game can be won, in the ideal number of moves *)

Lemma filter_ext_in {A : Type} (P Q : A -> Prop)
    `{!forall x, Decision (P x)} `{!forall x, Decision (Q x)} (l : list A) :
  (forall x, x ∈ l -> (P x <-> Q x)) -> filter P l = filter Q l.
Proof.
  induction l as [|x l IH]; intros Hext; [done|].
  rewrite !filter_cons.
  assert (HPQ : P x <-> Q x) by (apply Hext; by left).
  rewrite IH by (intros y Hy; apply Hext; by right).
  destruct (decide (P x)), (decide (Q x)); tauto.
Qed.

Lemma filter_all {A : Type} (P : A -> Prop) `{!forall x, Decision (P x)}
    (l : list A) :
  (forall x, x ∈ l -> P x) -> filter P l = l.
Proof.
  induction l as [|x l IH]; intros Hall; [done|].
  rewrite filter_cons, decide_True by (apply Hall; by left).
  rewrite IH; [done|]. intros y Hy. apply Hall. by right.
Qed.

Lemma filter_not_in_take (k : nat) (l : list nat) :
  NoDup l -> filter (fun x => x ∉ take k l) l = drop k l.
Proof.
  revert k. induction l as [|x l IH]; intros k Hnd; [by destruct k|].
  apply NoDup_cons in Hnd as [Hx Hnd].
  destruct k as [|k]; simpl.
  - apply filter_all. intros y _. apply not_elem_of_nil.
  - rewrite filter_cons, decide_False by (intros H; apply H; by left).
    rewrite <- IH by done. apply filter_ext_in.
    intros y Hy. rewrite not_elem_of_cons. split; [tauto|].
    intros H. split; [|done]. by intros ->.
Qed.

Lemma card_at_nat (cs : list string) (i : nat) :
  card_at cs (Z.of_nat i) = cs !! i.
Proof.
  unfold card_at. destruct (Z.ltb_spec (Z.of_nat i) 0); [lia|].
  by rewrite Nat2Z.id.
Qed.

(** The positions that show a token are as many as its occurrences. *)
Lemma showing_count (t : string) (cs : list string) :
  length (showing cs (Some t) (seq 0 (length cs))) = occurrences t cs.
Proof.
  unfold showing. induction cs as [|x cs IH] using rev_ind; [done|].
  rewrite length_app. simpl. rewrite Nat.add_1_r, seq_S. simpl.
  rewrite filter_app, length_app, occurrences_app.
  rewrite (filter_ext_in _ (fun i => cs !! i = Some t)).
  - rewrite IH. f_equal.
    rewrite filter_cons, filter_nil. unfold occurrences.
    rewrite filter_cons, filter_nil.
    rewrite list_lookup_middle by done.
    destruct (decide (Some x = Some t)) as [[= ->]|Hne].
    + by rewrite decide_True.
    + rewrite decide_False; [done|]. by intros ->.
  - intros i Hi. apply elem_of_seq in Hi.
    rewrite lookup_app_l by lia. done.
Qed.

Lemma filter_none {A : Type} (P : A -> Prop) `{!forall x, Decision (P x)}
    (l : list A) :
  (forall x, x ∈ l -> ~ P x) -> filter P l = [].
Proof.
  induction l as [|x l IH]; intros Hnone; [done|].
  rewrite filter_cons, decide_False by (apply Hnone; by left).
  apply IH. intros y Hy. apply Hnone. by right.
Qed.

Lemma showing_none (cs : list string) :
  showing cs None (seq 0 (length cs)) = [].
Proof.
  unfold showing. apply filter_none. intros i Hi Hnone.
  apply elem_of_seq in Hi. apply lookup_ge_None in Hnone. lia.
Qed.

Lemma flip_all_steps (g : list Z) (s : State) :
  (forall i, i ∈ g -> in_deck (cards s) i) ->
  rtc session_step s (flip_all g s).
Proof.
  revert s. induction g as [|i g IH]; intros s Hin; [apply rtc_refl|].
  unfold flip_all. simpl. fold (flip_all g (flipCard i s)).
  assert (Hi : in_deck (cards s) i) by (apply Hin; by left).
  apply (rtc_l _ _ (flipCard i s)).
  - replace i with (Z.of_nat (Z.to_nat i)) by (unfold in_deck in Hi; lia).
    apply step_click. unfold in_deck in Hi. lia.
  - apply IH. intros j Hj.
    pose proof (flipCard_frame i s) as (-> & _). apply Hin. by right.
Qed.

Lemma run_timeout_steps (s : State) : rtc session_step s (run_timeout s).
Proof.
  destruct (timeouts s) as [|c rest] eqn:Hto.
  - unfold run_timeout. rewrite Hto. apply rtc_refl.
  - apply rtc_once, step_timeout. by rewrite Hto.
Qed.

Lemma matched_everything (m : list Z) (cs : list string) :
  NoDup m ->
  (forall i, i ∈ m -> in_deck cs i) ->
  (forall i, i < length cs -> Z.of_nat i ∈ m) ->
  length m = length cs.
Proof.
  intros Hnd Hrange Hall.
  assert (Hp : m ≡ₚ seqZ 0 (Z.of_nat (length cs))).
  { apply NoDup_Permutation; [done|apply NoDup_seqZ|].
    intros i. rewrite elem_of_seqZ. split.
    - intros Hi. specialize (Hrange i Hi). unfold in_deck in Hrange. lia.
    - intros Hi. replace i with (Z.of_nat (Z.to_nat i)) by lia.
      apply Hall. lia. }
  rewrite Hp, length_seqZ. lia.
Qed.

Lemma unmatched_after_group (gN : list nat) (s : State) (m : nat) :
  unmatched_positions
    (setMatched (matched s ++ (Z.of_nat <$> gN)) (setMoves m s))
  = filter (fun i => i ∉ gN) (unmatched_positions s).
Proof.
  unfold unmatched_positions. simpl. rewrite list_filter_filter.
  apply list_filter_iff. intros i. rewrite not_elem_of_app.
  rewrite list_elem_of_fmap. split.
  - intros [Hm Hg]. split; [|done]. intros Hi. apply Hg. by exists i.
  - intros [Hg Hm]. split; [done|]. intros (j & Hj & Hin).
    apply Nat2Z.inj in Hj. by subst j.
Qed.

Lemma won_when_none_unmatched (s : State) :
  unmatched_positions s = [] ->
  0 < length (cards s) ->
  NoDup (matched s) ->
  (forall i, i ∈ matched s -> in_deck (cards s) i) ->
  allMatched s = true.
Proof.
  intros Hu Hdeck Hnd Hrange. unfold allMatched.
  rewrite andb_true_iff, !bool_decide_eq_true. split; [|done].
  apply matched_everything; try done.
  intros i Hi. destruct (decide (Z.of_nat i ∈ matched s)) as [|Hn]; [done|].
  assert (Hin : i ∈ unmatched_positions s).
  { apply list_elem_of_filter. split; [done|]. apply elem_of_seq. lia. }
  rewrite Hu in Hin. by apply elem_of_nil in Hin.
Qed.

Lemma filter_swap {A : Type} (P Q : A -> Prop)
    `{!forall x, Decision (P x)} `{!forall x, Decision (Q x)} (l : list A) :
  filter P (filter Q l) = filter Q (filter P l).
Proof.
  rewrite !list_filter_filter. apply list_filter_iff. intros x. tauto.
Qed.

(** From a state between two moves in which the unmatched cards of every
    token come in whole groups, matching one group after the other wins
    the game, one move per group. *)
Lemma win_from (n : nat) (s : State) :
  length (unmatched_positions s) <= n ->
  between_moves s ->
  0 < length (cards s) ->
  NoDup (matched s) ->
  (forall i, i ∈ matched s -> in_deck (cards s) i) ->
  groups_remain s ->
  exists s',
    rtc session_step s s' /\ allMatched s' = true
    /\ cards s' = cards s /\ difficulty s' = difficulty s
    /\ difficultyMultiplier (difficulty s) * moves s' + length (matched s)
       = difficultyMultiplier (difficulty s) * moves s + length (matched s').
Proof.
  revert s. induction n as [|n IH]; intros s Hlen Hrest Hdeck Hnd Hrange Hgr.
  { exists s. split; [apply rtc_refl|]. split; [|by repeat split].
    apply won_when_none_unmatched; try done.
    destruct (unmatched_positions s); [done|simpl in Hlen; lia]. }
  destruct (unmatched_positions s) as [|i0 u'] eqn:Hu.
  { exists s. split; [apply rtc_refl|]. split; [|by repeat split].
    by apply won_when_none_unmatched. }
  destruct Hrest as (Hd & Hf & Hto).
  pose proof (difficultyMultiplier_bounds (difficulty s)) as Hm.
  set (mult := difficultyMultiplier (difficulty s)) in *.
  set (t := cards s !! i0).
  set (U := showing (cards s) t (unmatched_positions s)).
  assert (HU : forall j, j ∈ U ->
            cards s !! j = t /\ (Z.of_nat j ∉ matched s)
            /\ j < length (cards s)).
  { intros j Hj. unfold U, showing, unmatched_positions in Hj.
    apply list_elem_of_filter in Hj as [Ht Hj].
    apply list_elem_of_filter in Hj as [Hj1 Hj2].
    apply elem_of_seq in Hj2. repeat split; [done..|lia]. }
  assert (Hi0 : i0 ∈ U).
  { unfold U, showing. apply list_elem_of_filter. split; [done|].
    rewrite Hu. by left. }
  assert (HUlen : mult <= length U).
  { pose proof (Hgr t) as Hmod. fold mult U in Hmod.
    pose proof (Nat.div_mod_eq (length U) mult) as Hdm.
    destruct U as [|? ?]; [by apply elem_of_nil in Hi0|]. simpl in *.
    destruct (S (length U) / mult) eqn:Hq; nia. }
  assert (HUnd : NoDup U).
  { unfold U, showing, unmatched_positions.
    apply NoDup_filter, NoDup_filter, NoDup_seq. }
  set (gN := take mult U).
  assert (HgN : forall j, j ∈ gN -> j ∈ U).
  { intros j Hj. apply elem_of_take in Hj as (k & Hk & _).
    by eapply list_elem_of_lookup_2. }
  assert (HgNlen : length gN = mult) by (unfold gN; rewrite length_take; lia).
  assert (HgNnd : NoDup gN).
  { eapply sublist_NoDup; [exact HUnd|apply sublist_take]. }
  set (g := Z.of_nat <$> gN).
  assert (Hg : forall i, i ∈ g -> exists j, i = Z.of_nat j /\ j ∈ gN).
  { intros i Hi. by apply list_elem_of_fmap in Hi. }
  assert (Hgnd : NoDup g).
  { apply NoDup_fmap_2; [|done]. intros a b. apply Nat2Z.inj. }
  assert (Hglen : length g = mult) by (unfold g; by rewrite length_fmap).
  assert (Hgnm : forall i, i ∈ g -> i ∉ matched s).
  { intros i (j & -> & Hj)%Hg. by apply HU, HgN. }
  assert (Hgdeck : forall i, i ∈ g -> in_deck (cards s) i).
  { intros i (j & -> & Hj)%Hg. apply HgN, HU in Hj as (_ & _ & Hj).
    unfold in_deck. lia. }
  assert (Hsame : all_match (map (card_at (cards s)) g) = true).
  { apply all_match_same_tokens. intros a b (ja & -> & Ha)%Hg (jb & -> & Hb)%Hg.
    rewrite !card_at_nat.
    apply HgN, HU in Ha as (-> & _). by apply HgN, HU in Hb as (-> & _). }
  pose proof (matching_group_move g s Hd Hf Hto Hgnd Hglen Hgnm Hsame) as Hmove.
  set (s1 := setMatched (matched s ++ g) (setMoves (moves s + 1) s)) in *.
  assert (Hsteps : rtc session_step s s1).
  { rewrite <- Hmove. etrans; [by apply flip_all_steps|apply run_timeout_steps]. }
  assert (Hu1 : unmatched_positions s1
                = filter (fun i => i ∉ gN) (unmatched_positions s)).
  { apply unmatched_after_group. }
  destruct (IH s1) as (s' & Hsteps' & Hwon & Hcards & Hdiff & Hcount).
  - rewrite Hu1.
    assert (Hlt : length (filter (fun i => i ∉ gN) (unmatched_positions s))
                  < length (unmatched_positions s)).
    { destruct gN as [|x gN'] eqn:HgNeq; [simpl in HgNlen; lia|].
      apply (length_filter_lt _ _ x).
      - assert (Hx : x ∈ U) by (apply HgN; by left).
        unfold U, showing in Hx. by apply list_elem_of_filter in Hx as [_ Hx].
      - intros Hx. apply Hx. by left. }
    assert (Hul : length (unmatched_positions s) = S (length u'))
      by (by rewrite Hu).
    simpl in Hlen. lia.
  - by repeat split.
  - done.
  - simpl. apply NoDup_app. split; [done|]. split; [|done].
    intros i Hi Hig. by apply (Hgnm i).
  - simpl. intros i Hi. apply elem_of_app in Hi as [Hi|Hi]; [by apply Hrange|].
    by apply Hgdeck.
  - intros t'. rewrite Hu1. simpl. fold mult. unfold showing.
    rewrite filter_swap.
    destruct (decide (t' = t)) as [->|Hne].
    + fold (showing (cards s) t (unmatched_positions s)). fold U.
      unfold gN. rewrite filter_not_in_take by done. rewrite length_drop.
      pose proof (Hgr t) as Hmod. fold mult U in Hmod.
      pose proof (Nat.div_mod_eq (length U) mult) as Hdm.
      replace (length U - mult) with ((length U / mult - 1) * mult) by nia.
      apply Nat.Div0.mod_mul.
    + rewrite filter_all; [apply Hgr|].
      intros x Hx Hxg. apply list_elem_of_filter in Hx as [Hx _].
      apply HgN, HU in Hxg as (Hxt & _). congruence.
  - exists s'. split; [by etrans|]. split; [done|].
    simpl in Hcards, Hdiff, Hcount. fold mult in Hcount.
    split; [done|]. split; [done|].
    rewrite length_app, Hglen in Hcount. lia.
Qed.

Lemma new_game_groups_remain (s0 : State) : new_game s0 -> groups_remain s0.
Proof.
  intros (now & s & r & _ & Hne & _ & ->). unfold resetGame.
  pose proof (startNewGame_resets now (gridSize s) (difficulty s) s r Hne)
    as (_ & Hma & _ & _ & Hdiff & _).
  pose proof (startNewGame_cards now (gridSize s) (difficulty s) s r Hne) as Hdeck.
  set (s' := (startNewGame now (gridSize s) (difficulty s) s r).1) in *.
  simpl in Hma, Hdiff.
  intros t. rewrite Hdiff.
  assert (Hu : unmatched_positions s' = seq 0 (length (cards s'))).
  { unfold unmatched_positions. apply filter_all. intros i _.
    rewrite Hma. apply not_elem_of_nil. }
  rewrite Hu. destruct t as [t|].
  - rewrite showing_count, (occurrences_perm t _ _ Hdeck).
    rewrite occurrences_duplicate_each, Nat.mul_comm.
    apply Nat.Div0.mod_mul.
  - rewrite showing_none. simpl. apply Nat.Div0.mod_0_l.
Qed.

(** X11. Every game that [startNewGame] starts from a usable
    configuration can be won: there is a play, through clicks on the
    rendered cards and the match checks, that reaches [allMatched], and it
    takes one move per group, so that the score set at the end is 100. *)
Theorem every_game_can_be_won (s0 : State) :
  new_game s0 ->
  exists s,
    rtc session_step s0 s
    /\ allMatched s = true
    /\ difficultyMultiplier (difficulty s) * moves s = length (cards s)
    /\ (score (score_effect s) == 100)%Q.
Proof.
  intros Hnew.
  pose proof (new_game_inv s0 Hnew) as [Hnd Hrange _ Hdeck _ Hpend].
  pose proof (new_game_groups_remain s0 Hnew) as Hgr.
  assert (Hstart : flipped s0 = [] /\ matched s0 = [] /\ disabled s0 = false
                   /\ moves s0 = 0 /\ timeouts s0 = []).
  { destruct Hnew as (now & s & r & _ & Hne & Hnone & ->). unfold resetGame.
    pose proof (startNewGame_resets now (gridSize s) (difficulty s) s r Hne)
      as (Hf & Hma & Hd & Hmv & _ & Hto & _).
    simpl in *. rewrite Hto. by repeat split. }
  destruct Hstart as (Hf & Hma & Hd & Hmv & Hto).
  destruct (win_from (length (unmatched_positions s0)) s0)
    as (s & Hsteps & Hwon & Hcards & Hdiff & Hcount); try done.
  { rewrite Hma. constructor. }
  { intros i Hi. rewrite Hma in Hi. by apply elem_of_nil in Hi. }
  exists s. split; [done|]. split; [done|].
  assert (Hlen : length (matched s) = length (cards s)).
  { unfold allMatched in Hwon.
    by apply andb_true_iff in Hwon as [Hl%bool_decide_eq_true _]. }
  rewrite Hma, Hmv in Hcount. simpl in Hcount.
  assert (Hideal : difficultyMultiplier (difficulty s) * moves s
                   = length (cards s)).
  { rewrite Hdiff. lia. }
  split; [done|].
  unfold score_effect. rewrite Hwon. simpl.
  pose proof (difficultyMultiplier_bounds (difficulty s)) as Hm.
  replace (length (cards s))
    with (moves s * difficultyMultiplier (difficulty s))%nat by lia.
  rewrite efficiency_ideal by lia.
  rewrite Q.max_r; [ring|lra].
Qed.

Lemma every_game_can_be_won_witness :
  exists s,
    rtc session_step tiny_game s
    /\ allMatched s = true
    /\ difficultyMultiplier (difficulty s) * moves s = length (cards s)
    /\ (score (score_effect s) == 100)%Q.
Proof.
  apply (every_game_can_be_won tiny_game). exact tiny_game_is_new.
Defined.

Lemma session_score_in_range_witness :
  (0 <= score (score_effect tiny_won) <= 100)%Q.
Proof.
  apply (session_score_in_range tiny_game tiny_won).
  - exact tiny_game_is_new.
  - exact tiny_game_played.
  - reflexivity.
Defined.

Lemma session_keeps_at_rest_invariants_witness :
  at_rest_invariants tiny_half
  /\ (session_step tiny_half (flipCard (Z.of_nat 2) tiny_half) ->
      at_rest_invariants (flipCard (Z.of_nat 2) tiny_half)
      /\ moves tiny_half <= moves (flipCard (Z.of_nat 2) tiny_half)).
Proof.
  apply (session_keeps_at_rest_invariants tiny_game tiny_half).
  - exact tiny_game_is_new.
  - eapply rtc_l; [apply (step_click 0 tiny_game); vm_compute; lia|].
    eapply rtc_l; [apply (step_click 1 (flipCard (Z.of_nat 0) tiny_game));
                   vm_compute; lia|].
    eapply rtc_l; [apply (step_timeout
                     (flipCard (Z.of_nat 1) (flipCard (Z.of_nat 0) tiny_game)));
                   discriminate|].
    apply rtc_refl.
Defined.

(** ** What the buttons show *)

Lemma isFlipped_true (i : nat) (s : State) :
  isFlipped i s = true <-> Z.of_nat i ∈ flipped s ++ matched s.
Proof.
  unfold isFlipped, includes.
  rewrite orb_true_iff, !bool_decide_eq_true, elem_of_app. tauto.
Qed.

Lemma isFlipped_decide (i : nat) (s : State) :
  isFlipped i s = bool_decide (Z.of_nat i ∈ flipped s ++ matched s).
Proof.
  destruct (isFlipped i s) eqn:Hi.
  - symmetry. apply bool_decide_eq_true. by apply isFlipped_true.
  - symmetry. apply bool_decide_eq_false. intros Hin.
    apply isFlipped_true in Hin. congruence.
Qed.

(** X12. In a game started while no match check of an earlier game is
    pending, and played through the rendered cards: the button of a card
    shows the card when its index is flipped or matched and the
    placeholder otherwise; the positions for which the source's
    [isFlipped] holds are exactly the flipped and the matched indices, as
    many as there are such indices; a new game shows the placeholder on
    every button, and a won game shows every card. *)
Theorem rendered_cards_of_game (s0 s : State) :
  new_game s0 ->
  rtc session_step s0 s ->
  rendered_cards s0 = replicate (length (cards s0)) placeholder
  /\ length (rendered_cards s) = length (cards s)
  /\ (forall i c, cards s !! i = Some c ->
        rendered_cards s !! i
        = Some (if bool_decide (Z.of_nat i ∈ flipped s ++ matched s)
                then c else placeholder))
  /\ (Z.of_nat <$> face_up s) ≡ₚ flipped s ++ matched s
  /\ length (face_up s) = length (flipped s) + length (matched s)
  /\ (allMatched s = true -> rendered_cards s = cards s).
Proof.
  intros Hnew Hsteps.
  pose proof (session_inv_reachable s0 s Hnew Hsteps)
    as [Hnd Hrange _ Hdeck _ _].
  assert (Hup : (Z.of_nat <$> face_up s) ≡ₚ flipped s ++ matched s).
  { apply NoDup_Permutation; [|done|].
    - apply NoDup_fmap_2; [intros a b; apply Nat2Z.inj|].
      apply NoDup_filter, NoDup_seq.
    - intros x. rewrite list_elem_of_fmap. unfold face_up. split.
      + intros (i & -> & Hi). apply list_elem_of_filter in Hi as [Hi _].
        by apply isFlipped_true.
      + intros Hx. pose proof (Hrange x Hx) as Hin. unfold in_deck in Hin.
        exists (Z.to_nat x). split; [lia|].
        apply list_elem_of_filter. split.
        * apply isFlipped_true. by rewrite Z2Nat.id by lia.
        * apply elem_of_seq. lia. }
  assert (Hshow : forall i c, cards s !! i = Some c ->
            rendered_cards s !! i
            = Some (if bool_decide (Z.of_nat i ∈ flipped s ++ matched s)
                    then c else placeholder)).
  { intros i c Hc. unfold rendered_cards.
    rewrite list_lookup_imap, Hc. simpl. by rewrite isFlipped_decide. }
  split; [|split; [|split; [|split; [|split]]]].
  - destruct Hnew as (now & s' & r & _ & Hne & _ & ->). unfold resetGame.
    pose proof (startNewGame_resets now (gridSize s') (difficulty s') s' r Hne)
      as (Hf & Hma & _).
    simpl in Hf, Hma. unfold rendered_cards.
    apply list_eq. intros i. rewrite list_lookup_imap.
    destruct (cards _ !! i) as [c|] eqn:Hc; simpl.
    + rewrite lookup_replicate_2 by (by eapply lookup_lt_Some).
      unfold isFlipped, includes. rewrite Hf, Hma.
      rewrite !bool_decide_eq_false_2 by apply not_elem_of_nil. done.
    + symmetry. apply lookup_replicate_None. by apply lookup_ge_None.
  - unfold rendered_cards. apply length_imap.
  - exact Hshow.
  - exact Hup.
  - rewrite <- (length_fmap Z.of_nat), Hup. apply length_app.
  - intros Hwon. unfold allMatched in Hwon.
    apply andb_true_iff in Hwon as [Hlen%bool_decide_eq_true _].
    apply list_eq. intros i.
    destruct (cards s !! i) as [c|] eqn:Hc.
    + rewrite (Hshow i c Hc). rewrite bool_decide_eq_true_2; [done|].
      apply elem_of_app. right. apply lookup_lt_Some in Hc.
      apply (all_positions_listed (matched s) (length (cards s))); try done.
      * by apply NoDup_app in Hnd as (_ & _ & Hnd).
      * intros j Hj. apply Hrange, elem_of_app. by right.
      * lia.
    + unfold rendered_cards. by rewrite list_lookup_imap, Hc.
Qed.

Lemma rendered_cards_of_game_witness :
  rendered_cards tiny_game = replicate (length (cards tiny_game)) placeholder
  /\ length (rendered_cards tiny_half) = length (cards tiny_half)
  /\ (forall i c, cards tiny_half !! i = Some c ->
        rendered_cards tiny_half !! i
        = Some (if bool_decide (Z.of_nat i ∈ flipped tiny_half ++ matched tiny_half)
                then c else placeholder))
  /\ (Z.of_nat <$> face_up tiny_half) ≡ₚ flipped tiny_half ++ matched tiny_half
  /\ length (face_up tiny_half)
     = length (flipped tiny_half) + length (matched tiny_half)
  /\ (allMatched tiny_half = true -> rendered_cards tiny_half = cards tiny_half).
Proof.
  apply (rendered_cards_of_game tiny_game tiny_half).
  - exact tiny_game_is_new.
  - eapply rtc_l; [apply (step_click 0 tiny_game); vm_compute; lia|].
    eapply rtc_l; [apply (step_click 1 (flipCard (Z.of_nat 0) tiny_game));
                   vm_compute; lia|].
    eapply rtc_l; [apply (step_timeout
                     (flipCard (Z.of_nat 1) (flipCard (Z.of_nat 0) tiny_game)));
                   discriminate|].
    apply rtc_refl.
Defined.

(** ** formatTime *)

Lemma string_app_length (s t : string) :
  String.length (s +:+ t) = String.length s + String.length t.
Proof.
  induction s as [|c s IH]; [done|].
  change (String.length (String c (s +:+ t)) = S (String.length s) + String.length t).
  simpl. by rewrite IH.
Qed.

Lemma string_app_inj_suffix (s1 s2 t1 t2 : string) :
  (s1 +:+ t1 = s2 +:+ t2)%string ->
  String.length t1 = String.length t2 ->
  s1 = s2 /\ t1 = t2.
Proof.
  revert s2. induction s1 as [|c s1 IH]; intros [|c2 s2] Heq Hlen; simpl in *.
  - done.
  - apply (f_equal String.length) in Heq.
    rewrite !string_app_length in Heq. simpl in Heq. lia.
  - apply (f_equal String.length) in Heq.
    rewrite !string_app_length in Heq. simpl in Heq. lia.
  - change (String c (s1 +:+ t1) = String c2 (s2 +:+ t2))%string in Heq.
    injection Heq as -> Heq. destruct (IH s2 Heq Hlen) as [-> ->]. done.
Qed.

Lemma pretty_N_go_length (x : N) (s : string) :
  String.length s <= String.length (pretty_N_go x s).
Proof.
  revert s. induction (N.lt_wf_0 x) as [x _ IH]; intros s.
  destruct (decide (x = 0%N)) as [->|Hx]; [by rewrite pretty_N_go_0|].
  rewrite pretty_N_go_step by lia.
  etrans; [|apply IH; apply N.div_lt; lia]. simpl. lia.
Qed.

Lemma toString_long (k : Z) :
  (100 <= k)%Z -> 3 <= String.length (toString k).
Proof.
  intros Hk. destruct k as [|p|p]; [lia| |lia].
  unfold toString, pretty, pretty_Z, pretty, pretty_positive, pretty, pretty_N.
  rewrite decide_False by done.
  assert (100 <= N.pos p)%N by lia.
  assert (10 <= N.pos p / 10)%N by (apply N.div_le_lower_bound; lia).
  assert (1 <= N.pos p / 10 / 10)%N by (apply N.div_le_lower_bound; lia).
  rewrite pretty_N_go_step by lia.
  rewrite pretty_N_go_step by lia.
  rewrite pretty_N_go_step by lia.
  etrans; [|apply pretty_N_go_length]. simpl. lia.
Qed.

Lemma pad_two_digits (k : Z) :
  (0 <= k < 100)%Z -> padStart 2 "0" (toString k) = two_digits k.
Proof.
  intros Hk.
  assert (Hall : Forall (fun k => padStart 2 "0" (toString k) = two_digits k)
                   (seqZ 0 100)).
  { apply (bool_decide_unpack _). vm_compute. reflexivity. }
  rewrite Forall_forall in Hall. apply Hall, elem_of_seqZ. lia.
Qed.

Lemma pad_long (k : Z) :
  (100 <= k)%Z -> padStart 2 "0" (toString k) = toString k.
Proof.
  intros Hk. pose proof (toString_long k Hk).
  unfold padStart. rewrite decide_True; [done|lia].
Qed.

Lemma two_digits_inj (a b : Z) :
  (0 <= a < 100)%Z -> (0 <= b < 100)%Z ->
  two_digits a = two_digits b -> a = b.
Proof.
  intros Ha Hb [= H1 H0].
  apply pretty_N_char_inj in H1, H0;
    try (apply N2Z.inj_lt; rewrite Z2N.id; [|apply Z.div_pos || apply Z.mod_pos_bound; lia]);
    try (simpl; apply Z.div_lt_upper_bound; lia);
    try (simpl; apply Z.mod_pos_bound; lia).
  apply Z2N.inj in H1, H0;
    try (apply Z.div_pos; lia); try (apply Z.mod_pos_bound; lia).
  rewrite (Z.div_mod a 10), (Z.div_mod b 10) by lia. lia.
Qed.

Lemma formatTime_parts (seconds : Z) :
  (0 <= seconds)%Z ->
  formatTime seconds
  = (padStart 2 "0" (toString (seconds / 60)) +:+ ":"
     +:+ two_digits (seconds mod 60))%string.
Proof.
  intros Hs. unfold formatTime.
  rewrite Z.rem_mod_nonneg by lia.
  rewrite (pad_two_digits (seconds mod 60)); [done|].
  pose proof (Z.mod_pos_bound seconds 60). lia.
Qed.

(** X13. For a whole number of seconds from 0 to 2^53 (the integers a
    JavaScript number holds exactly): below 100 minutes [formatTime] gives
    exactly the five characters MM:SS, minutes and seconds on two digits
    each; from 100 minutes on the minutes are written in full (the pad
    never cuts), the seconds stay on two digits, and the text is longer
    than five characters. *)
Theorem formatTime_clock (seconds : Z) :
  (0 <= seconds <= 2 ^ 53)%Z ->
  ((seconds < 6000)%Z ->
   formatTime seconds
   = (two_digits (seconds / 60) +:+ ":" +:+ two_digits (seconds mod 60))%string
   /\ String.length (formatTime seconds) = 5)
  /\ ((6000 <= seconds)%Z ->
      formatTime seconds
      = (toString (seconds / 60) +:+ ":" +:+ two_digits (seconds mod 60))%string
      /\ 5 < String.length (formatTime seconds)).
Proof.
  intros [Hs _]. rewrite formatTime_parts by done. split; intros Hrange.
  - rewrite pad_two_digits; [done|].
    split; [apply Z.div_pos; lia|apply Z.div_lt_upper_bound; lia].
  - assert (Hm : (100 <= seconds / 60)%Z) by (apply Z.div_le_lower_bound; lia).
    rewrite pad_long by done. split; [done|].
    rewrite string_app_length. pose proof (toString_long _ Hm). simpl. lia.
Qed.

Lemma formatTime_clock_witness :
  ((125 < 6000)%Z ->
   formatTime 125
   = (two_digits (125 / 60) +:+ ":" +:+ two_digits (125 mod 60))%string
   /\ String.length (formatTime 125) = 5)
  /\ ((6000 <= 125)%Z ->
      formatTime 125
      = (toString (125 / 60) +:+ ":" +:+ two_digits (125 mod 60))%string
      /\ 5 < String.length (formatTime 125)).
Proof.
  apply (formatTime_clock 125). lia.
Defined.

(** X14. Two different elapsed times (whole numbers of seconds from 0 to
    2^53, the integers a JavaScript number holds exactly) are never
    displayed as the same text. *)
Theorem formatTime_inj (a b : Z) :
  (0 <= a <= 2 ^ 53)%Z -> (0 <= b <= 2 ^ 53)%Z ->
  formatTime a = formatTime b -> a = b.
Proof.
  intros [Ha _] [Hb _]. rewrite !formatTime_parts by done. intros Heq.
  apply string_app_inj_suffix in Heq as [Hm Hsec]; [|done].
  injection Hsec as Hsec.
  assert (Hra : (0 <= a mod 60 < 100)%Z) by (pose proof (Z.mod_pos_bound a 60); lia).
  assert (Hrb : (0 <= b mod 60 < 100)%Z) by (pose proof (Z.mod_pos_bound b 60); lia).
  assert (Hr : (a mod 60 = b mod 60)%Z).
  { apply two_digits_inj; try done. unfold two_digits. congruence. }
  assert (Hqa : (0 <= a / 60)%Z) by (apply Z.div_pos; lia).
  assert (Hqb : (0 <= b / 60)%Z) by (apply Z.div_pos; lia).
  assert (Hq : (a / 60 = b / 60)%Z).
  { destruct (Z_lt_le_dec (a / 60) 100) as [Hsa|Hla];
      destruct (Z_lt_le_dec (b / 60) 100) as [Hsb|Hlb].
    - rewrite !pad_two_digits in Hm by lia. apply two_digits_inj; [lia..|done].
    - rewrite pad_two_digits in Hm by lia. rewrite pad_long in Hm by done.
      apply (f_equal String.length) in Hm.
      pose proof (toString_long _ Hlb). simpl in Hm. lia.
    - rewrite (pad_two_digits (b / 60)) in Hm by lia.
      rewrite pad_long in Hm by done.
      apply (f_equal String.length) in Hm.
      pose proof (toString_long _ Hla). simpl in Hm. lia.
    - rewrite !pad_long in Hm by done. by apply (inj pretty) in Hm. }
  rewrite (Z.div_mod a 60), (Z.div_mod b 60) by lia. lia.
Qed.

Lemma formatTime_inj_witness : (59 : Z) = (59 : Z).
Proof.
  apply (formatTime_inj 59 59); [lia|lia|reflexivity].
Defined.

(** ** A match check that is pending when a new game starts *)

(** X15. [startNewGame] keeps a pending match check, and the check then
    runs in the new game: it empties [flipped] and enables clicks there,
    and it makes the indices of the old group the matched indices of the
    new game exactly when the cards of the old deck at these indices were
    identical, whatever the new deck has there. *)
Theorem pending_check_survives_restart
    (now : Z) (size : nat) (diff : Difficulty) (s : State) (r : Rng)
    (c : Timeout) (rest : list Timeout) :
  emojiList s <> [] ->
  timeouts s = c :: rest ->
  let s1 := (startNewGame now size diff s r).1 in
  let s2 := run_timeout s1 in
  timeouts s1 = c :: rest
  /\ cards s2 = cards s1 /\ moves s2 = 0
  /\ flipped s2 = [] /\ disabled s2 = false /\ timeouts s2 = rest
  /\ (same_tokens (t_cards c) (group_of c) -> matched s2 = group_of c)
  /\ (~ same_tokens (t_cards c) (group_of c) -> matched s2 = []).
Proof.
  intros Hne Hto s1 s2.
  pose proof (startNewGame_resets now size diff s r Hne)
    as (_ & Hma & _ & Hmv & _ & Hto1 & _).
  fold s1 in Hma, Hmv, Hto1. rewrite Hto in Hto1.
  split; [done|].
  assert (Hs2 : s2 = timeout_callback c (setTimeouts rest s1)).
  { unfold s2, run_timeout. by rewrite Hto1. }
  pose proof (timeout_callback_outcome c (setTimeouts rest s1))
    as (Hf & Hd & Hc & _ & Hto2 & Hyes & Hno).
  pose proof (timeout_callback_moves c (setTimeouts rest s1)) as Hmv2.
  rewrite <- Hs2 in Hf, Hd, Hc, Hto2, Hyes, Hno, Hmv2.
  simpl in Hc, Hto2, Hyes, Hno, Hmv2. rewrite Hma in Hyes, Hno.
  split; [done|]. split; [congruence|]. by repeat split.
Qed.

Lemma pending_check_survives_restart_witness :
  let s1 := (startNewGame 1 4 medium pair_pending mixed_rng).1 in
  let s2 := run_timeout s1 in
  timeouts s1 = pending_pair_check :: []
  /\ cards s2 = cards s1 /\ moves s2 = 0
  /\ flipped s2 = [] /\ disabled s2 = false /\ timeouts s2 = []
  /\ (same_tokens (t_cards pending_pair_check) (group_of pending_pair_check) ->
      matched s2 = group_of pending_pair_check)
  /\ (~ same_tokens (t_cards pending_pair_check) (group_of pending_pair_check) ->
      matched s2 = []).
Proof.
  apply (pending_check_survives_restart 1 4 medium pair_pending mixed_rng
           pending_pair_check []).
  - discriminate.
  - reflexivity.
Defined.

(** ** Match checks of an earlier game: groups and score *)

(** C3 fails on the code.  [startNewGame] does not cancel the pending
    match check (the defect of C9).  The pair at 0 and 1 is flipped in the
    game of pairs and "hard" is selected before its check runs; in the
    game of quadruples the clicks on the cards 0 to 3, which show G, F, A
    and D, complete a group.  The check that then runs is the one of the
    old pair: it empties [flipped] and re-enables clicks, and although the
    four flipped cards differ it changes [matched], to the two indices of
    the old pair; the check of the four cards itself, which runs next,
    leaves that in place. *)
Theorem stale_check_resolves_differing_group :
  disabled four_flipped = true
  /\ flipped four_flipped = [0; 1; 2; 3]%Z
  /\ length (flipped four_flipped)
     = difficultyMultiplier (difficulty four_flipped)
  /\ map (card_at (cards four_flipped)) (flipped four_flipped)
     = [Some "G"; Some "F"; Some "A"; Some "D"]%string
  /\ ~ same_tokens (cards four_flipped) (flipped four_flipped)
  /\ matched four_flipped = []
  /\ flipped (run_timeout four_flipped) = []
  /\ disabled (run_timeout four_flipped) = false
  /\ matched (run_timeout four_flipped) = [0; 1]%Z
  /\ matched (run_timeout (run_timeout four_flipped)) = [0; 1]%Z.
Proof.
  split_and!; try reflexivity.
  intros Hsame.
  assert (H01 : card_at (cards four_flipped) 0 = card_at (cards four_flipped) 1).
  { apply Hsame; apply (bool_decide_unpack _); vm_compute; reflexivity. }
  vm_compute in H01. discriminate.
Qed.

(** C4 fails on the code.  The score has no upper clamp, and a match check
    that [startNewGame] did not cancel (the defect of C9) lets a game be
    won in fewer moves than it has groups.  The pair at 0 and 1 of the 5x5
    game is flipped, the 4x4 grid is selected before the check runs, the
    check marks 0 and 1 of the new deck (a pair of A) as matched without a
    move, and the seven other pairs take seven moves: the game of 16 cards
    is won in 7 moves and the score effect sets 105. *)
Theorem won_game_scores_105 :
  cards small_restarted
  = ["A"; "A"; "B"; "B"; "C"; "C"; "D"; "D"; "E"; "E"; "F"; "F"; "G"; "G";
     "H"; "H"]%string
  /\ matched small_restarted = [] /\ moves small_restarted = 0
  /\ matched (run_timeout small_restarted) = [0; 1]%Z
  /\ moves (run_timeout small_restarted) = 0
  /\ allMatched won_below_ideal = true
  /\ moves won_below_ideal = 7
  /\ length (cards won_below_ideal)
     / difficultyMultiplier (difficulty won_below_ideal) = 8
  /\ (score (score_effect won_below_ideal) == 105)%Q
  /\ ~ (score (score_effect won_below_ideal) <= 100)%Q.
Proof.
  split_and!; try reflexivity.
  intros H. vm_compute in H. by apply H.
Qed.
